(** * Informed RRT* planner: a shallow embedding of
      PathPlanning/InformedRRTStar/informed_rrt_star.py

    Python floats are idealised as real numbers ([R]); [float('inf')] is the
    extra point of [ext]; exceptions are values of [result].  The random
    module is replaced by an explicit record of draws per iteration. *)

From Stdlib Require Import Reals Lra Lia List ZArith Bool Psatz.
Import ListNotations.
Open Scope R_scope.

(** ** Python exceptions and the error monad *)

Inductive exn : Type :=
| ZeroDivisionError   (* float division by zero *)
| ValueError          (* math domain error, min() of an empty list, list.index miss *)
| IndexError          (* list index out of range *)
| NonTermination.     (* the model's fuel for a [while] loop ran out *)

Inductive result (A : Type) : Type :=
| Ok (a : A)
| Raise (e : exn).
Arguments Ok {A} a.
Arguments Raise {A} e.

Definition bind {A B : Type} (m : result A) (k : A -> result B) : result B :=
  match m with
  | Ok a => k a
  | Raise e => Raise e
  end.

Notation "x <- m ;; k" := (bind m (fun x => k))
  (at level 61, m at next level, right associativity).

Fixpoint mapM {A B : Type} (f : A -> result B) (l : list A) : result (list B) :=
  match l with
  | [] => Ok []
  | a :: t => b <- f a ;; bs <- mapM f t ;; Ok (b :: bs)
  end.

Fixpoint foldM {A S : Type} (f : S -> A -> result S) (l : list A) (s : S) : result S :=
  match l with
  | [] => Ok s
  | a :: t => s' <- f s a ;; foldM f t s'
  end.

(** ** Numbers *)

(** [float('inf')] next to the finite floats. *)
Inductive ext : Type :=
| Fin (r : R)
| Inf.

(** [a < b] on floats that may be infinite. *)
Definition ext_ltb (a b : ext) : bool :=
  match a, b with
  | Fin x, Fin y => if Rlt_dec x y then true else false
  | Fin _, Inf => true
  | Inf, _ => false
  end.

Definition ext_eqb (a b : ext) : bool :=
  match a, b with
  | Fin x, Fin y => if Req_dec_T x y then true else false
  | Inf, Inf => true
  | _, _ => false
  end.

(** [a / b], raising on a zero divisor. *)
Definition pydiv (a b : R) : result R :=
  if Req_dec_T b 0 then Raise ZeroDivisionError else Ok (a / b).

(** [math.sqrt], raising on a negative argument. *)
Definition pysqrt (a : R) : result R :=
  if Rlt_dec a 0 then Raise ValueError else Ok (sqrt a).

(** [math.log], raising outside its domain. *)
Definition pylog (a : R) : result R :=
  if Rlt_dec 0 a then Ok (ln a) else Raise ValueError.

(** [math.atan2 y x]. *)
Definition atan2 (y x : R) : R :=
  if Rlt_dec 0 x then atan (y / x)
  else if Rlt_dec x 0 then
         (if Rle_dec 0 y then atan (y / x) + PI else atan (y / x) - PI)
       else if Rlt_dec 0 y then PI / 2
            else if Rlt_dec y 0 then - (PI / 2)
                 else 0.

(** [int(x)]: truncation towards zero. *)
Definition py_int (x : R) : Z :=
  if Rle_dec 0 x then Int_part x else (- Int_part (- x))%Z.

(** [range(n)] runs [Z.to_nat n] times: not at all for [n <= 0]. *)
Definition range_len (n : Z) : nat := Z.to_nat n.

(** [min(l)] on a list of floats. *)
Fixpoint list_min (l : list R) : result R :=
  match l with
  | [] => Raise ValueError
  | a :: t =>
      match t with
      | [] => Ok a
      | _ => m <- list_min t ;; Ok (if Rlt_dec m a then m else a)
      end
  end.

(** [l.index(v)]: position of the first element equal to [v]. *)
Fixpoint list_index (v : R) (l : list R) : result nat :=
  match l with
  | [] => Raise ValueError
  | a :: t => if Req_dec_T a v then Ok O
              else i <- list_index v t ;; Ok (S i)
  end.

Fixpoint ext_min (l : list ext) : result ext :=
  match l with
  | [] => Raise ValueError
  | a :: t =>
      match t with
      | [] => Ok a
      | _ => m <- ext_min t ;; Ok (if ext_ltb m a then m else a)
      end
  end.

Fixpoint ext_index (v : ext) (l : list ext) : result nat :=
  match l with
  | [] => Raise ValueError
  | a :: t => if ext_eqb a v then Ok O
              else i <- ext_index v t ;; Ok (S i)
  end.

(** [l[i]] for a non-negative index. *)
Definition getitem {A : Type} (l : list A) (i : nat) : result A :=
  match nth_error l i with
  | Some a => Ok a
  | None => Raise IndexError
  end.

(** [l[i] = v] by mutation of the element in place. *)
Fixpoint setitem {A : Type} (l : list A) (i : nat) (v : A) : list A :=
  match l, i with
  | [], _ => []
  | _ :: t, O => v :: t
  | a :: t, S j => a :: setitem t j v
  end.

(** ** Data model *)

Definition point : Type := (R * R)%type.

(** class Node *)
Record Node : Type := mkNode {
  x : R;
  y : R;
  cost : R;
  parent : option nat
}.

Definition Node_init (px py : R) : Node := mkNode px py 0 None.

Definition obstacle : Type := (R * R * R)%type.

(** The fields [InformedRRTStar.__init__] stores. *)
Record InformedRRTStar : Type := mkPlanner {
  start : Node;
  goal : Node;
  min_rand : R;
  max_rand : R;
  expand_dis : R;
  goal_sample_rate : Z;
  max_iter : nat;
  obstacle_list : list obstacle
}.

(** [InformedRRTStar.__init__]: every argument is stored as given; no
    statement of the constructor can raise on numeric arguments. *)
Definition init (startp goalp : point) (obstacleList : list obstacle)
    (randArea : R * R) (expandDis : R) (goalSampleRate : Z) (maxIter : nat)
  : result InformedRRTStar :=
  Ok (mkPlanner (Node_init (fst startp) (snd startp))
                (Node_init (fst goalp) (snd goalp))
                (fst randArea) (snd randArea)
                expandDis goalSampleRate maxIter obstacleList).

(** ** Geometry and collision *)

Definition sqr (a : R) : R := a * a.

Definition line_cost (node1 node2 : Node) : R :=
  sqrt (sqr (x node1 - x node2) + sqr (y node1 - y node2)).

(** [True] is safe, [False] is a collision. *)
Fixpoint collision_check (newNode : Node) (obstacleList : list obstacle) : bool :=
  match obstacleList with
  | [] => true
  | (ox, oy, size) :: rest =>
      let dx := ox - x newNode in
      let dy := oy - y newNode in
      let d := dx * dx + dy * dy in
      if Rle_dec d (11 / 10 * sqr size) then false
      else collision_check newNode rest
  end.

Definition advance (self : InformedRRTStar) (theta : R) (n : Node) : Node :=
  mkNode (x n + expand_dis self * cos theta)
         (y n + expand_dis self * sin theta)
         (cost n) (parent n).

(** The [for] loop of [check_collision_extend]: the verdict, and (as a
    ghost value) the positions that were point-tested, in order. *)
Fixpoint extend_loop (self : InformedRRTStar) (theta : R) (n : nat) (tmpNode : Node)
  : bool * list point :=
  match n with
  | O => (true, [])
  | S k =>
      let tmp' := advance self theta tmpNode in
      if negb (collision_check tmp' (obstacle_list self))
      then (false, [(x tmp', y tmp')])
      else let '(v, tested) := extend_loop self theta k tmp' in
           (v, (x tmp', y tmp') :: tested)
  end.

Definition check_collision_extend (self : InformedRRTStar)
    (nearNode : Node) (theta d : R) : result bool :=
  q <- pydiv d (expand_dis self) ;;
  Ok (fst (extend_loop self theta (range_len (py_int q)) nearNode)).

(** The positions [check_collision_extend] point-tests. *)
Definition check_collision_extend_tests (self : InformedRRTStar)
    (nearNode : Node) (theta d : R) : result (list point) :=
  q <- pydiv d (expand_dis self) ;;
  Ok (snd (extend_loop self theta (range_len (py_int q)) nearNode)).

(** ** The random module, made explicit *)

(** What the random module hands out during one iteration of the search. *)
Record Draws : Type := mkDraws {
  randint_0_100 : Z;  (* random.randint(0, 100) *)
  uniform_1 : R;      (* the random() behind the first random.uniform *)
  uniform_2 : R;      (* the random() behind the second random.uniform *)
  ball_a : R;         (* first random.random() of sample_unit_ball *)
  ball_b : R          (* second random.random() of sample_unit_ball *)
}.

(** [random.uniform(a, b)] is [a + (b - a) * random()]. *)
Definition uniform (a b t : R) : R := a + (b - a) * t.

Definition vec3 : Type := (R * R * R)%type.
Definition mat3 : Type := (vec3 * vec3 * vec3)%type.

Definition dot3 (a b : vec3) : R :=
  let '(a0, a1, a2) := a in
  let '(b0, b1, b2) := b in
  a0 * b0 + a1 * b1 + a2 * b2.

(** [np.dot(M, np.diag(r))] *)
Definition mat_diag (M : mat3) (r : vec3) : mat3 :=
  let '(r0, r1, r2) := r in
  let scale := fun row : vec3 =>
    let '(m0, m1, m2) := row in (m0 * r0, m1 * r1, m2 * r2) in
  let '(row0, row1, row2) := M in
  (scale row0, scale row1, scale row2).

(** [np.dot(M, v)] for a column [v]. *)
Definition mat_vec (M : mat3) (v : vec3) : vec3 :=
  let '(row0, row1, row2) := M in
  (dot3 row0 v, dot3 row1 v, dot3 row2 v).

Definition vec_add (a b : vec3) : vec3 :=
  let '(a0, a1, a2) := a in
  let '(b0, b1, b2) := b in
  (a0 + b0, a1 + b1, a2 + b2).

(** ** Sampler *)

(** Which branch of [sample_free_space] a [randint] outcome takes. *)
Definition draws_uniform (self : InformedRRTStar) (k : Z) : bool :=
  (goal_sample_rate self <? k)%Z.

Definition sample_free_space (self : InformedRRTStar) (dr : Draws) : point :=
  if draws_uniform self (randint_0_100 dr)
  then (uniform (min_rand self) (max_rand self) (uniform_1 dr),
        uniform (min_rand self) (max_rand self) (uniform_2 dr))
  else (x (goal self), y (goal self)).

Definition sample_unit_ball (dr : Draws) : result vec3 :=
  let a := ball_a dr in
  let b := ball_b dr in
  let '(a, b) := if Rlt_dec b a then (b, a) else (a, b) in
  q <- pydiv (2 * PI * a) b ;;
  Ok (b * cos q, b * sin q, 0).

(** [cMax < float('inf')] holds exactly for a finite [cMax]. *)
Definition informed_sample (self : InformedRRTStar) (cMax : ext) (cMin : R)
    (xCenter : vec3) (C : mat3) (dr : Draws) : result point :=
  match cMax with
  | Fin c =>
      s <- pysqrt (c * c - cMin * cMin) ;;
      let r := (c / 2, s / 2, s / 2) in
      xBall <- sample_unit_ball dr ;;
      let '(rnd0, rnd1, _) := vec_add (mat_vec (mat_diag C r) xBall) xCenter in
      Ok (rnd0, rnd1)
  | Inf => Ok (sample_free_space self dr)
  end.

(** ** Tree queries and steering *)

Definition get_path_len_loop (acc : R) (prev : point) (rest : list point) : R :=
  fst (fold_left
         (fun (st : R * point) (p : point) =>
            let '(pathLen, q) := st in
            (pathLen + sqrt (sqr (fst p - fst q) + sqr (snd p - snd q)), p))
         rest (acc, prev)).

Definition get_path_len (path : list point) : R :=
  match path with
  | [] => 0
  | p :: rest => get_path_len_loop 0 p rest
  end.

Definition get_nearest_list_index (nodes : list Node) (rnd : point) : result nat :=
  let dList := map (fun node => sqr (x node - fst rnd) + sqr (y node - snd rnd)) nodes in
  m <- list_min dList ;;
  list_index m dList.

Definition get_new_node (self : InformedRRTStar) (theta : R) (nind : nat)
    (nearestNode : Node) : Node :=
  mkNode (x nearestNode + expand_dis self * cos theta)
         (y nearestNode + expand_dis self * sin theta)
         (cost nearestNode + expand_dis self)
         (Some nind).

Definition is_near_goal (self : InformedRRTStar) (node : Node) : bool :=
  if Rlt_dec (line_cost node (goal self)) (expand_dis self) then true else false.

(** The squared distances [find_near_nodes] lists. *)
Definition near_dlist (node_list : list Node) (newNode : Node) : list R :=
  map (fun node => sqr (x node - x newNode) + sqr (y node - y newNode)) node_list.

(** The radius of [find_near_nodes] for a tree of [nnode] nodes. *)
Definition near_radius (nnode : nat) : result R :=
  l <- pylog (INR nnode) ;;
  q <- pydiv l (INR nnode) ;;
  s <- pysqrt q ;;
  Ok (50 * s).

Definition find_near_nodes (node_list : list Node) (newNode : Node) : result (list nat) :=
  r <- near_radius (length node_list) ;;
  let dlist := near_dlist node_list newNode in
  mapM (fun i => list_index i dlist)
       (filter (fun i => if Rle_dec i (r * r) then true else false) dlist).

(** ** Parent selection and rewiring *)

(** One entry of [dList] in [choose_parent]. *)
Definition parent_cost (self : InformedRRTStar) (node_list : list Node)
    (newNode : Node) (i : nat) : result ext :=
  ni <- getitem node_list i ;;
  let dx := x newNode - x ni in
  let dy := y newNode - y ni in
  let d := sqrt (sqr dx + sqr dy) in
  let theta := atan2 dy dx in
  free <- check_collision_extend self ni theta d ;;
  Ok (if free then Fin (cost ni + d) else Inf).

Definition choose_parent (self : InformedRRTStar) (node_list : list Node)
    (newNode : Node) (nearInds : list nat) : result Node :=
  match nearInds with
  | [] => Ok newNode
  | _ =>
      dList <- mapM (parent_cost self node_list newNode) nearInds ;;
      minCost <- ext_min dList ;;
      k <- ext_index minCost dList ;;
      minInd <- getitem nearInds k ;;
      match minCost with
      | Inf => Ok newNode
      | Fin c => Ok (mkNode (x newNode) (y newNode) c (Some minInd))
      end
  end.

(** The body of the [for] loop of [rewire], on the node list it mutates. *)
Definition rewire_step (self : InformedRRTStar) (newNode : Node) (n_node : nat)
    (node_list : list Node) (i : nat) : result (list Node) :=
  nearNode <- getitem node_list i ;;
  let d := sqrt (sqr (x nearNode - x newNode) + sqr (y nearNode - y newNode)) in
  let scost := cost newNode + d in
  if Rlt_dec scost (cost nearNode) then
    let theta := atan2 (y newNode - y nearNode) (x newNode - x nearNode) in
    free <- check_collision_extend self nearNode theta d ;;
    if free
    then Ok (setitem node_list i
               (mkNode (x nearNode) (y nearNode) scost (Some (n_node - 1)%nat)))
    else Ok node_list
  else Ok node_list.

Definition rewire (self : InformedRRTStar) (node_list : list Node)
    (newNode : Node) (nearInds : list nat) : result (list Node) :=
  foldM (rewire_step self newNode (length node_list)) nearInds node_list.

(** ** Path extraction *)

(** The [while] loop of [get_final_course]; [fuel] bounds its iterations. *)
Fixpoint final_course_loop (fuel : nat) (node_list : list Node)
    (lastIndex : nat) (path : list point) : result (list point) :=
  node <- getitem node_list lastIndex ;;
  match parent node with
  | None => Ok path
  | Some p =>
      match fuel with
      | O => Raise NonTermination
      | S f => final_course_loop f node_list p (path ++ [(x node, y node)])
      end
  end.

Definition get_final_course (self : InformedRRTStar) (fuel : nat)
    (node_list : list Node) (lastIndex : nat) : result (list point) :=
  path <- final_course_loop fuel node_list lastIndex [(x (goal self), y (goal self))] ;;
  Ok (path ++ [(x (start self), y (start self))]).

(** ** The growth loop *)

(** The values fixed before the loop of [informed_rrt_star_search]. *)
Record Setup : Type := mkSetup {
  cMin : R;
  xCenter : vec3;
  C : mat3
}.

(** The variables the loop of [informed_rrt_star_search] updates; [recorded]
    is a ghost list of the values assigned to [cBest], oldest first. *)
Record State : Type := mkState {
  node_list : list Node;
  cBest : ext;
  pathLen : ext;
  path : option (list point);
  recorded : list R
}.

Section Search.

(** The rotation numpy computes from the unit vector [a1] (lines 57-61:
    the SVD of [a1 @ id1_t] with the determinant correction). *)
Variable svd_rotation : vec3 -> mat3.

Definition setup (self : InformedRRTStar) : result Setup :=
  let cMin := sqrt (sqr (x (start self) - x (goal self))
                    + sqr (y (start self) - y (goal self))) in
  let xCenter := ((x (start self) + x (goal self)) / 2,
                  (y (start self) + y (goal self)) / 2, 0) in
  a1x <- pydiv (x (goal self) - x (start self)) cMin ;;
  a1y <- pydiv (y (goal self) - y (start self)) cMin ;;
  Ok (mkSetup cMin xCenter (svd_rotation (a1x, a1y, 0))).

Definition initial_state (self : InformedRRTStar) : State :=
  mkState [start self] Inf Inf None [].

(** Lines 87-94: the goal check after an insertion. *)
Definition check_goal (self : InformedRRTStar) (st : State) (newNode : Node)
  : result State :=
  if is_near_goal self newNode then
    let lastIndex := (length (node_list st) - 1)%nat in
    tempPath <- get_final_course self (length (node_list st)) (node_list st) lastIndex ;;
    let tempPathLen := get_path_len tempPath in
    if ext_ltb (Fin tempPathLen) (pathLen st)
    then Ok (mkState (node_list st) (Fin tempPathLen) (pathLen st)
                     (Some tempPath) (recorded st ++ [tempPathLen]))
    else Ok st
  else Ok st.

(** One pass through the body of the [for] loop (animation off). *)
Definition iteration (self : InformedRRTStar) (su : Setup) (st : State)
    (dr : Draws) : result State :=
  rnd <- informed_sample self (cBest st) (cMin su) (xCenter su) (C su) dr ;;
  nind <- get_nearest_list_index (node_list st) rnd ;;
  nearestNode <- getitem (node_list st) nind ;;
  let theta := atan2 (snd rnd - y nearestNode) (fst rnd - x nearestNode) in
  let newNode := get_new_node self theta nind nearestNode in
  let d := line_cost nearestNode newNode in
  let isCollision := collision_check newNode (obstacle_list self) in
  isCollisionEx <- check_collision_extend self nearestNode theta d ;;
  if isCollision && isCollisionEx then
    nearInds <- find_near_nodes (node_list st) newNode ;;
    newNode <- choose_parent self (node_list st) newNode nearInds ;;
    let nl := node_list st ++ [newNode] in
    nl <- rewire self nl newNode nearInds ;;
    check_goal self
      (mkState nl (cBest st) (pathLen st) (path st) (recorded st)) newNode
  else Ok st.

Definition search_state (self : InformedRRTStar) (draws : nat -> Draws)
  : result State :=
  su <- setup self ;;
  foldM (iteration self su) (map draws (seq 0 (max_iter self)))
        (initial_state self).

Definition informed_rrt_star_search (self : InformedRRTStar)
    (draws : nat -> Draws) : result (option (list point)) :=
  st <- search_state self draws ;;
  Ok (path st).

End Search.

(** * Definitions used by the properties *)

(** Whether a position passes the point test. *)
Definition point_free (self : InformedRRTStar) (p : point) : bool :=
  collision_check (mkNode (fst p) (snd p) 0 None) (obstacle_list self).

(** The positions at offsets [stepLength], [2 * stepLength], ...,
    [n * stepLength] from [nearNode] along [theta]. *)
Definition offsets (self : InformedRRTStar) (nearNode : Node) (theta : R)
    (first n : nat) : list point :=
  map (fun k => (x nearNode + INR k * (expand_dis self * cos theta),
                 y nearNode + INR k * (expand_dis self * sin theta)))
      (seq first n).

(** A list of positions cut after its first colliding one. *)
Fixpoint upto_first_collision (self : InformedRRTStar) (l : list point) : list point :=
  match l with
  | [] => []
  | p :: t => if point_free self p then p :: upto_first_collision self t else [p]
  end.

(** The configuration of [main]. *)
Definition main_obstacles : list obstacle :=
  [(5, 5, 1 / 2); (9, 6, 1); (7, 5, 1); (1, 5, 1); (3, 6, 1); (7, 9, 1)].

Definition main_planner : InformedRRTStar :=
  mkPlanner (Node_init 0 0) (Node_init 5 10) (-2) 15 (1 / 2) 10 200 main_obstacles.

(** The equally likely outcomes of [random.randint(0, 100)]: both ends
    are included. *)
Definition randint_outcomes : list Z := map Z.of_nat (seq 0 101).

(** A tree of three nodes grown with step length 1, and the node steered
    from the root straight up. *)
Definition symmetric_tree : list Node :=
  [Node_init 0 0; mkNode 1 0 1 (Some 0%nat); mkNode (-1) 0 1 (Some 0%nat)].

Definition node_above_root : Node := mkNode 0 1 1 (Some 0%nat).

(** The rotation for a start-to-goal direction along the x axis. *)
Definition identity_rotation : vec3 -> mat3 :=
  fun _ => ((1, 0, 0), (0, 1, 0), (0, 0, 1)).

Definition constant_draws (dr : Draws) : nat -> Draws := fun _ => dr.

(** [climbs nl i k]: following parent handles from index [i] reaches, after
    exactly [k] hops, a node without a parent. *)
Inductive climbs (nl : list Node) : nat -> nat -> Prop :=
| climbs_root (i : nat) (nd : Node) :
    nth_error nl i = Some nd -> parent nd = None -> climbs nl i 0
| climbs_step (i : nat) (nd : Node) (p k : nat) :
    nth_error nl i = Some nd -> parent nd = Some p ->
    climbs nl p k -> climbs nl i (S k).

(** What holds of the node list throughout a run (step length not negative). *)
Record tree_ok (self : InformedRRTStar) (nl : list Node) : Prop := mk_tree_ok {
  ok_root : exists r, nth_error nl 0 = Some r /\ parent r = None /\ cost r = 0
                      /\ x r = x (start self) /\ y r = y (start self);
  ok_unique_root : forall i nd,
      nth_error nl i = Some nd -> parent nd = None -> i = 0%nat;
  ok_cost : forall i nd, nth_error nl i = Some nd -> 0 <= cost nd;
  ok_parent : forall i nd p,
      nth_error nl i = Some nd -> parent nd = Some p ->
      exists pn, nth_error nl p = Some pn /\ cost pn + line_cost nd pn <= cost nd;
  ok_climbs : forall i nd, nth_error nl i = Some nd -> exists k, climbs nl i k
}.

(** A planner as [__init__] leaves it: the start node is a fresh [Node]. *)
Definition constructed (self : InformedRRTStar) : Prop :=
  parent (start self) = None /\ cost (start self) = 0.

(** What [rewire] keeps fixed while it runs: the shape of the tree, its
    size, and the new node at the last index. *)
Definition rewire_inv (self : InformedRRTStar) (newNode : Node) (n_node : nat)
    (nl : list Node) : Prop :=
  tree_ok self nl /\ length nl = n_node
  /\ nth_error nl (n_node - 1) = Some newNode.

(** The state after the first [n] iterations of the search. *)
Definition run (svd_rotation : vec3 -> mat3) (self : InformedRRTStar)
    (draws : nat -> Draws) (n : nat) : result State :=
  su <- setup svd_rotation self ;;
  foldM (iteration self su) (map draws (seq 0 n)) (initial_state self).

(** *** A run along the x axis

    Start (0,0), goal (3/2,0), step length 1, no obstacles, two iterations.
    The first draw takes the goal-bias branch; the second is an informed
    sample with [random()] results 0 and 1/2.  Of the rotation only its
    first column matters here, and that column is the unit vector from the
    start to the goal whatever basis the SVD completes it with. *)

Definition first_column (M : mat3) : vec3 :=
  let '((a, _, _), (b, _, _), (c, _, _)) := M in (a, b, c).

Definition line_planner : InformedRRTStar :=
  mkPlanner (Node_init 0 0) (Node_init (3 / 2) 0) (-2) 15 1 10 2 [].

Definition line_setup (svd : vec3 -> mat3) : Setup :=
  mkSetup (3 / 2) (3 / 4, 0, 0) (svd (1, 0, 0)).

Definition line_draws (i : nat) : Draws :=
  match i with
  | O => mkDraws 0 0 0 0 0
  | _ => mkDraws 0 0 0 0 (1 / 2)
  end.

Definition line_node_1 : Node := mkNode 1 0 1 (Some 0%nat).
Definition line_node_2 : Node := mkNode 2 0 2 (Some 0%nat).

Definition line_state_1 : State :=
  mkState [Node_init 0 0; line_node_1] (Fin (3 / 2)) Inf
          (Some [(3 / 2, 0); (1, 0); (0, 0)]) [3 / 2].

Definition line_state_2 : State :=
  mkState [Node_init 0 0; line_node_1; line_node_2] (Fin (5 / 2)) Inf
          (Some [(3 / 2, 0); (2, 0); (0, 0)]) [3 / 2; 5 / 2].

Definition dist (p q : point) : R :=
  sqrt (sqr (fst p - fst q) + sqr (snd p - snd q)).








(** *** A run with a detour that a later node shortens

    Start (0,0), goal (1000,0), step length 50, no obstacles, sampling
    square [-100,100], four iterations.  With steps longer than the near
    radius the second and third nodes keep their steering parents; the
    fourth node lands near the root and near the second node and rewires
    it. *)

Definition detour_planner : InformedRRTStar :=
  mkPlanner (Node_init 0 0) (Node_init 1000 0) (-100) 100 50 10 4 [].

Definition detour_setup : Setup :=
  mkSetup 1000 (500, 0, 0) (identity_rotation (1, 0, 0)).

Definition detour_draws (i : nat) : Draws :=
  match i with
  | 0%nat => mkDraws 0 0 0 0 0
  | 1%nat => mkDraws 50 (73 / 100) (103 / 200) 0 0
  | 2%nat => mkDraws 50 (11 / 20) (131 / 200) 0 0
  | _ => mkDraws 50 (63 / 100) (107 / 200) 0 0
  end.

Definition detour_a : Node := mkNode 50 0 50 (Some 0%nat).
Definition detour_b : Node := mkNode 10 30 100 (Some 1%nat).
Definition detour_d : Node := mkNode 10 80 150 (Some 2%nat).
Definition detour_n : Node := mkNode 2 14 (sqrt 200) (Some 0%nat).
Definition detour_b' : Node := mkNode 10 30 (sqrt 200 + sqrt 320) (Some 4%nat).

Definition detour_state (nl : list Node) : State := mkState nl Inf Inf None [].

(** ** Notions for the further properties *)


(** The squared distance [get_nearest_list_index] ranks nodes by. *)
Definition sq_dist_to (rnd : point) (nd : Node) : R :=
  sqr (x nd - fst rnd) + sqr (y nd - snd rnd).

(** The sum of the distances between consecutive points of a list. *)
Fixpoint pathsum (l : list point) : R :=
  match l with
  | a :: ((b :: _) as t) => dist b a + pathsum t
  | _ => 0
  end.

(** [a <= b] on floats that may be infinite. *)
Definition ext_le (a b : ext) : Prop :=
  match a, b with
  | Fin u, Fin w => u <= w
  | _, Inf => True
  | Inf, Fin _ => False
  end.

(** The nodes of the tree within distance [r] of [newNode]. *)
Definition within_radius (newNode : Node) (r : R) (nd : Node) : bool :=
  if Rle_dec (sq_dist_to (x newNode, y newNode) nd) (r * r) then true else false.

(** The second list holds, index by index, the nodes of the first at the
    same positions and at costs that are not higher; it may hold more. *)
Definition extends_tree (old new : list Node) : Prop :=
  (length old <= length new)%nat
  /\ forall i nd, nth_error old i = Some nd ->
       exists nd', nth_error new i = Some nd'
         /\ x nd' = x nd /\ y nd' = y nd /\ cost nd' <= cost nd.

(** Every node but the one at index 0 passes the point collision test. *)
Definition nodes_clear (self : InformedRRTStar) (nl : list Node) : Prop :=
  forall i nd, (1 <= i)%nat -> nth_error nl i = Some nd ->
    collision_check nd (obstacle_list self) = true.

(** The bookkeeping of the best path found so far. *)
Definition best_recorded (st : State) : Prop :=
  pathLen st = Inf
  /\ match path st with
     | None => cBest st = Inf /\ recorded st = []
     | Some course =>
         cBest st = Fin (get_path_len course)
         /\ recorded st <> []
         /\ last (recorded st) 0 = get_path_len course
     end.

Definition second_column (M : mat3) : vec3 :=
  let '((_, a, _), (_, b, _), (_, c, _)) := M in (a, b, c).

(** The first two columns of [M] are orthonormal and the first one is
    the planar unit vector from the start to the goal: what holds of a
    rotation that takes the x axis to that direction. *)
Definition aligned_rotation (self : InformedRRTStar) (su : Setup) : Prop :=
  first_column (C su)
  = ((x (goal self) - x (start self)) / cMin su,
     (y (goal self) - y (start self)) / cMin su, 0)
  /\ dot3 (first_column (C su)) (second_column (C su)) = 0
  /\ dot3 (second_column (C su)) (second_column (C su)) = 1.

(** * Properties *)

(** ** Small tactics and facts about the numeric layer *)

(** A term without a pending comparison of reals inside. *)
Ltac no_dec t :=
  lazymatch t with
  | context [Rle_dec _ _] => fail
  | context [Rlt_dec _ _] => fail
  | context [Req_dec_T _ _] => fail
  | _ => idtac
  end.

(** Decide the comparisons of reals met in the goal by [lra], innermost
    first. *)
Ltac rdec :=
  repeat match goal with
  | |- context [Rle_dec ?a ?b] =>
      no_dec a; no_dec b; destruct (Rle_dec a b); try lra
  | |- context [Rlt_dec ?a ?b] =>
      no_dec a; no_dec b; destruct (Rlt_dec a b); try lra
  | |- context [Req_dec_T ?a ?b] =>
      no_dec a; no_dec b; destruct (Req_dec_T a b); try lra
  end.

Lemma pydiv_ok (a b : R) : b <> 0 -> pydiv a b = Ok (a / b).
Proof. intros Hb. unfold pydiv. destruct (Req_dec_T b 0); [contradiction | reflexivity]. Qed.

Lemma pydiv_zero (a : R) : pydiv a 0 = Raise ZeroDivisionError.
Proof. unfold pydiv. destruct (Req_dec_T 0 0); [reflexivity | contradiction]. Qed.

Lemma pysqrt_ok (a : R) : 0 <= a -> pysqrt a = Ok (sqrt a).
Proof. intros Ha. unfold pysqrt. destruct (Rlt_dec a 0); [lra | reflexivity]. Qed.


Lemma Int_part_small (q : R) : 0 <= q < 1 -> Int_part q = 0%Z.
Proof. intros Hq. symmetry. apply Int_part_spec. simpl. lra. Qed.

Lemma sqr_nonneg (a : R) : 0 <= sqr a.
Proof. unfold sqr. nra. Qed.

Lemma sqr_pos (a : R) : a <> 0 -> 0 < sqr a.
Proof. intros Ha. unfold sqr. apply (Rsqr_pos_lt a Ha). Qed.

Lemma sqrt_sqr_sum_nonneg (a b : R) : 0 <= sqr a + sqr b.
Proof. pose proof (sqr_nonneg a). pose proof (sqr_nonneg b). lra. Qed.

(** ** The segment collision test *)

Lemma collision_check_position (n1 n2 : Node) (obs : list obstacle) :
  x n1 = x n2 -> y n1 = y n2 -> collision_check n1 obs = collision_check n2 obs.
Proof.
  intros Hx Hy. induction obs as [| [[ox oy] size] rest IH]; simpl.
  - reflexivity.
  - rewrite Hx, Hy, IH. reflexivity.
Qed.

Lemma offsets_step (self : InformedRRTStar) (nd : Node) (theta : R) (n : nat) :
  offsets self nd theta 1 (S n) =
  (x (advance self theta nd), y (advance self theta nd))
    :: offsets self (advance self theta nd) theta 1 n.
Proof.
  unfold offsets. cbn [seq map]. rewrite <- seq_shift, map_map.
  f_equal.
  - simpl. f_equal; lra.
  - apply map_ext. intros k. rewrite S_INR. simpl. f_equal; lra.
Qed.

Lemma extend_loop_spec (self : InformedRRTStar) (theta : R) (n : nat) :
  forall nd : Node,
    extend_loop self theta n nd =
    (forallb (point_free self) (offsets self nd theta 1 n),
     upto_first_collision self (offsets self nd theta 1 n)).
Proof.
  induction n as [| n IH]; intros nd.
  - reflexivity.
  - rewrite offsets_step. cbn [extend_loop forallb upto_first_collision].
    assert (Hfree : point_free self (x (advance self theta nd), y (advance self theta nd))
                    = collision_check (advance self theta nd) (obstacle_list self)).
    { unfold point_free. apply collision_check_position; reflexivity. }
    rewrite Hfree.
    destruct (collision_check (advance self theta nd) (obstacle_list self)); simpl.
    + rewrite IH. reflexivity.
    + reflexivity.
Qed.



(** ** Goal bias of the uninformed sampler *)

Lemma sample_free_space_goal (self : InformedRRTStar) (dr : Draws) :
  draws_uniform self (randint_0_100 dr) = false ->
  sample_free_space self dr = (x (goal self), y (goal self)).
Proof. intros H. unfold sample_free_space. rewrite H. reflexivity. Qed.

Lemma count_above (g : Z) (n : nat) :
  (0 <= g)%Z ->
  length (filter (fun k => (g <? k)%Z) (map Z.of_nat (seq 0 n)))
  = (n - S (Z.to_nat g))%nat.
Proof.
  intros Hg. induction n as [| n IH]; [reflexivity |].
  rewrite seq_S, map_app, filter_app, length_app, IH. cbn [Nat.add map filter].
  destruct (g <? Z.of_nat n)%Z eqn:Hlt; cbn [length].
  - apply Z.ltb_lt in Hlt. lia.
  - apply Z.ltb_ge in Hlt. lia.
Qed.

(** Of the 101 outcomes of [randint(0, 100)], the uniform branch takes
    [100 - goalSampleRate]. *)
Lemma uniform_branch_count (self : InformedRRTStar) :
  (0 <= goal_sample_rate self <= 100)%Z ->
  length (filter (draws_uniform self) randint_outcomes)
  = Z.to_nat (100 - goal_sample_rate self)
  /\ length randint_outcomes = 101%nat.
Proof.
  intros Hg. split; [| reflexivity].
  unfold randint_outcomes, draws_uniform. rewrite count_above by lia. lia.
Qed.

(** C8, on the code: with goalSampleRate = 10 the sampler takes the uniform
    branch on 90 of the 101 equally likely outcomes of randint(0, 100), which
    is not the fraction (100 - 10)/100. *)
Theorem sample_free_space_uniform_fraction :
  length (filter (draws_uniform main_planner) randint_outcomes) = 90%nat
  /\ length randint_outcomes = 101%nat
  /\ 90 / 101 <> (100 - 10) / 100.
Proof.
  split; [vm_compute; reflexivity |].
  split; [vm_compute; reflexivity |].
  lra.
Qed.

(** ** The near-node set *)

Lemma ln_INR_nonneg (n : nat) : (1 <= n)%nat -> 0 <= ln (INR n).
Proof.
  intros Hn. destruct (Nat.eq_dec n 1) as [-> | Hne].
  - simpl. rewrite ln_1. lra.
  - rewrite <- ln_1. left. apply ln_increasing; [lra |].
    change 1 with (INR 1). apply lt_INR. lia.
Qed.

Lemma near_radius_ok (n : nat) :
  (1 <= n)%nat ->
  exists r, near_radius n = Ok r /\ 0 <= r /\ r * r = 2500 * (ln (INR n) / INR n).
Proof.
  intros Hn.
  assert (Hpos : 0 < INR n) by (apply lt_0_INR; lia).
  assert (Hq : 0 <= ln (INR n) / INR n).
  { apply Rmult_le_pos; [now apply ln_INR_nonneg |]. left. now apply Rinv_0_lt_compat. }
  exists (50 * sqrt (ln (INR n) / INR n)). split; [| split].
  - unfold near_radius, pylog. destruct (Rlt_dec 0 (INR n)); [| contradiction].
    simpl. rewrite pydiv_ok by lra. simpl. rewrite pysqrt_ok by exact Hq. reflexivity.
  - pose proof (sqrt_pos (ln (INR n) / INR n)). lra.
  - pose proof (sqrt_sqrt _ Hq) as Hs.
    replace (50 * sqrt (ln (INR n) / INR n) * (50 * sqrt (ln (INR n) / INR n)))
      with (2500 * (sqrt (ln (INR n) / INR n) * sqrt (ln (INR n) / INR n))) by ring.
    rewrite Hs. reflexivity.
Qed.

Lemma ln_3_lower : 1 <= ln 3.
Proof.
  rewrite <- (ln_exp 1). pose proof exp_le_3 as H3.
  destruct H3 as [Hlt | Heq].
  - left. apply ln_increasing; [apply exp_pos | exact Hlt].
  - rewrite Heq. lra.
Qed.

(** C7, on the code: the node at index 2 is as close to the new node as
    the node at index 1 and within the radius, yet the near set lists index
    1 twice and index 2 never. *)
Theorem find_near_nodes_repeats_first_index :
  find_near_nodes symmetric_tree node_above_root = Ok [0%nat; 1%nat; 1%nat]
  /\ (exists r, near_radius (length symmetric_tree) = Ok r
        /\ line_cost (mkNode (-1) 0 1 (Some 0%nat)) node_above_root <= r).
Proof.
  destruct (near_radius_ok 3) as (r & Hr & Hr0 & Hrr); [lia |].
  assert (Hbig : 800 <= r * r).
  { rewrite Hrr. change (INR 3) with (1 + 1 + 1).
    replace (1 + 1 + 1) with 3 by ring. pose proof ln_3_lower. lra. }
  split.
  - unfold find_near_nodes. change (length symmetric_tree) with 3%nat.
    rewrite Hr. cbn [bind]. unfold near_dlist, symmetric_tree, node_above_root.
    cbn [map x y Node_init filter]. unfold sqr.
    repeat (match goal with
            | |- context [Rle_dec ?a ?b] => destruct (Rle_dec a b); [| exfalso; lra]
            end).
    cbn [filter mapM list_index bind].
    repeat (match goal with
            | |- context [Req_dec_T ?a ?b] =>
                destruct (Req_dec_T a b); try (exfalso; lra); cbn [bind]
            end).
    reflexivity.
  - exists r. split; [exact Hr |].
    unfold line_cost, node_above_root. cbn [x y]. unfold sqr.
    apply Rsqr_incr_0_var; [| exact Hr0]. unfold Rsqr.
    rewrite sqrt_sqrt by lra. lra.
Qed.

(** ** Construction and degenerate configurations *)

Section Degenerate.

Variable svd_rotation : vec3 -> mat3.

Lemma setup_start_is_goal (self : InformedRRTStar) :
  x (start self) = x (goal self) -> y (start self) = y (goal self) ->
  setup svd_rotation self = Raise ZeroDivisionError.
Proof.
  intros Hx Hy. unfold setup. rewrite Hx, Hy. unfold sqr.
  replace ((x (goal self) - x (goal self)) * (x (goal self) - x (goal self))
           + (y (goal self) - y (goal self)) * (y (goal self) - y (goal self)))
    with 0 by ring.
  rewrite sqrt_0, pydiv_zero. reflexivity.
Qed.

Lemma search_start_is_goal (self : InformedRRTStar) (draws : nat -> Draws) :
  x (start self) = x (goal self) -> y (start self) = y (goal self) ->
  informed_rrt_star_search svd_rotation self draws = Raise ZeroDivisionError.
Proof.
  intros Hx Hy. unfold informed_rrt_star_search, search_state.
  rewrite setup_start_is_goal by assumption. reflexivity.
Qed.

Lemma setup_ok (self : InformedRRTStar) :
  x (start self) <> x (goal self) \/ y (start self) <> y (goal self) ->
  exists su, setup svd_rotation self = Ok su
    /\ cMin su = sqrt (sqr (x (start self) - x (goal self))
                       + sqr (y (start self) - y (goal self)))
    /\ 0 < cMin su.
Proof.
  intros Hne. unfold setup.
  set (c := sqrt (sqr (x (start self) - x (goal self))
                  + sqr (y (start self) - y (goal self)))).
  assert (Hc : 0 < c).
  { apply sqrt_lt_R0.
    pose proof (sqr_nonneg (x (start self) - x (goal self))).
    pose proof (sqr_nonneg (y (start self) - y (goal self))).
    destruct Hne as [Hd | Hd];
      [pose proof (sqr_pos (x (start self) - x (goal self)))
      | pose proof (sqr_pos (y (start self) - y (goal self)))]; lra. }
  rewrite !pydiv_ok by lra. cbn [bind].
  eexists. split; [reflexivity |]. split; [reflexivity | exact Hc].
Qed.

Lemma get_nearest_single (nd : Node) (rnd : point) :
  get_nearest_list_index [nd] rnd = Ok 0%nat.
Proof.
  unfold get_nearest_list_index. cbn [map list_min bind list_index].
  destruct (Req_dec_T _ _); [reflexivity | contradiction].
Qed.

Lemma first_iteration_zero_step (self : InformedRRTStar) (su : Setup) (dr : Draws) :
  expand_dis self = 0 ->
  iteration self su (initial_state self) dr = Raise ZeroDivisionError.
Proof.
  intros He. unfold iteration, initial_state. cbn [cBest node_list informed_sample bind].
  rewrite get_nearest_single. cbn [bind getitem nth_error].
  unfold check_collision_extend. rewrite He, pydiv_zero. reflexivity.
Qed.

Lemma search_zero_step (self : InformedRRTStar) (draws : nat -> Draws) :
  expand_dis self = 0 -> (0 < max_iter self)%nat ->
  x (start self) <> x (goal self) \/ y (start self) <> y (goal self) ->
  informed_rrt_star_search svd_rotation self draws = Raise ZeroDivisionError.
Proof.
  intros He Hit Hne. unfold informed_rrt_star_search, search_state.
  destruct (setup_ok self Hne) as (su & Hsu & _). rewrite Hsu. cbn [bind].
  destruct (max_iter self) as [| k]; [lia |].
  cbn [seq map foldM]. rewrite first_iteration_zero_step by exact He. reflexivity.
Qed.

(** C5 as the code has it: construction never reports an error, whatever
    the configuration, and stores the arguments as given; when the start
    coincides with the goal the search then stops with a division by zero
    in the ellipse setup, and with a zero step length (start and goal
    apart, at least one iteration) it stops with a division by zero in
    the first segment test. *)
Theorem init_stores_unvalidated
    (startp goalp : point) (obs : list obstacle) (area : R * R)
    (e : R) (rate : Z) (it : nat) (draws : nat -> Draws) :
  exists self,
    init startp goalp obs area e rate it = Ok self
    /\ (x (start self), y (start self)) = startp
    /\ (x (goal self), y (goal self)) = goalp
    /\ expand_dis self = e
    /\ (min_rand self, max_rand self) = area
    /\ (startp = goalp ->
        informed_rrt_star_search svd_rotation self draws = Raise ZeroDivisionError)
    /\ (e = 0 -> (0 < it)%nat -> startp <> goalp ->
        informed_rrt_star_search svd_rotation self draws = Raise ZeroDivisionError).
Proof.
  destruct startp as [sx sy], goalp as [gx gy], area as [lo hi].
  eexists. split; [reflexivity |]. cbn [fst snd start goal x y Node_init expand_dis
                                        min_rand max_rand].
  repeat split.
  - intros Heq. inversion Heq; subst. apply search_start_is_goal; reflexivity.
  - intros He Hit Hne. apply search_zero_step; cbn; try assumption.
    destruct (Req_dec_T sx gx) as [-> | Hx]; [| now left].
    destruct (Req_dec_T sy gy) as [-> | Hy]; [| now right].
    now contradiction Hne.
Qed.

End Degenerate.

Lemma init_stores_unvalidated_witness :
  exists self,
    init (0, 0) (0, 0) main_obstacles (-2, 15) (1 / 2) 10 200 = Ok self
    /\ informed_rrt_star_search identity_rotation self
         (constant_draws (mkDraws 50 0 0 0 0)) = Raise ZeroDivisionError.
Proof.
  destruct (init_stores_unvalidated identity_rotation (0, 0) (0, 0) main_obstacles
              (-2, 15) (1 / 2) 10 200 (constant_draws (mkDraws 50 0 0 0 0)))
    as (self & Hinit & _ & _ & _ & _ & Hsame & _).
  exists self. split; [exact Hinit | apply Hsame; reflexivity].
Defined.

(** C5 fails on the code: a planner whose start is its goal is constructed
    without any error, and its search then divides by zero. *)
Lemma init_accepts_start_equal_goal :
  init (0, 0) (0, 0) main_obstacles (-2, 15) (1 / 2) 10 200
    = Ok (mkPlanner (Node_init 0 0) (Node_init 0 0) (-2) 15 (1 / 2) 10 200 main_obstacles)
  /\ forall (svd : vec3 -> mat3) (draws : nat -> Draws),
       informed_rrt_star_search svd
         (mkPlanner (Node_init 0 0) (Node_init 0 0) (-2) 15 (1 / 2) 10 200 main_obstacles)
         draws = Raise ZeroDivisionError.
Proof.
  split; [reflexivity |].
  intros svd draws. apply search_start_is_goal; reflexivity.
Qed.

(** ** Lists, indices and the error monad *)

Lemma bind_ok {A B : Type} (m : result A) (k : A -> result B) (b : B) :
  bind m k = Ok b -> exists a, m = Ok a /\ k a = Ok b.
Proof. destruct m as [a | e]; simpl; [eauto | discriminate]. Qed.

(** Split a hypothesis [x <- m ;; k = Ok b] into its two halves. *)
Ltac bind_inv H :=
  let a := fresh "v" in
  let Ha := fresh "Hv" in
  apply bind_ok in H; destruct H as (a & Ha & H).

Lemma getitem_ok {A : Type} (l : list A) (i : nat) (a : A) :
  getitem l i = Ok a <-> nth_error l i = Some a.
Proof.
  unfold getitem. destruct (nth_error l i); split; intros H;
    try discriminate; inversion H; reflexivity.
Qed.

Lemma length_setitem {A : Type} (l : list A) (i : nat) (v : A) :
  length (setitem l i v) = length l.
Proof.
  revert i. induction l as [| a t IH]; intros [| j]; simpl; try reflexivity.
  now rewrite IH.
Qed.

Lemma nth_error_setitem_eq {A : Type} (l : list A) (i : nat) (v : A) :
  (i < length l)%nat -> nth_error (setitem l i v) i = Some v.
Proof.
  revert i. induction l as [| a t IH]; intros [| j] Hlt; simpl in *; try lia.
  - reflexivity.
  - apply IH. lia.
Qed.

Lemma nth_error_setitem_neq {A : Type} (l : list A) (i j : nat) (v : A) :
  i <> j -> nth_error (setitem l i v) j = nth_error l j.
Proof.
  revert i j. induction l as [| a t IH]; intros [| i] [| j] Hne; simpl;
    try reflexivity; try congruence.
  apply IH. congruence.
Qed.

Lemma list_index_spec (v : R) (l : list R) (i : nat) :
  list_index v l = Ok i -> nth_error l i = Some v.
Proof.
  revert i. induction l as [| a t IH]; intros i H; simpl in H; [discriminate |].
  destruct (Req_dec_T a v) as [-> | Hne].
  - inversion H. reflexivity.
  - bind_inv H. inversion H; subst. simpl. now apply IH.
Qed.

Lemma list_index_found (v : R) (l : list R) :
  In v l -> exists i, list_index v l = Ok i.
Proof.
  induction l as [| a t IH]; intros Hin; [contradiction |]. simpl.
  destruct (Req_dec_T a v) as [-> | Hne]; [eauto |].
  destruct Hin as [-> | Hin]; [contradiction |].
  destruct (IH Hin) as (i & ->). simpl. eauto.
Qed.

Lemma list_min_in (l : list R) (m : R) : list_min l = Ok m -> In m l.
Proof.
  revert m. induction l as [| a t IH]; intros m H; [discriminate |].
  destruct t as [| b t'].
  - inversion H. now left.
  - cbn [list_min] in H. bind_inv H. inversion H; subst.
    destruct (Rlt_dec v a); [right; now apply IH | now left].
Qed.

Lemma list_min_nonempty (l : list R) : l <> [] -> exists m, list_min l = Ok m.
Proof.
  induction l as [| a t IH]; intros Hne; [contradiction |].
  destruct t as [| b t']; [simpl; eauto |].
  destruct IH as (m & Hm); [discriminate |].
  cbn [list_min]. cbn [list_min] in Hm. rewrite Hm. simpl. eauto.
Qed.

Lemma ext_eqb_eq (a b : ext) : ext_eqb a b = true -> a = b.
Proof.
  destruct a as [u |], b as [w |]; simpl; try discriminate; [| reflexivity].
  destruct (Req_dec_T u w); [now subst | discriminate].
Qed.

Lemma ext_index_spec (v : ext) (l : list ext) (i : nat) :
  ext_index v l = Ok i -> nth_error l i = Some v.
Proof.
  revert i. induction l as [| a t IH]; intros i H; simpl in H; [discriminate |].
  destruct (ext_eqb a v) eqn:Heq.
  - inversion H. apply ext_eqb_eq in Heq. now subst.
  - bind_inv H. inversion H; subst. simpl. now apply IH.
Qed.

Lemma mapM_nth {A B : Type} (f : A -> result B) (l : list A) (bs : list B)
    (i : nat) (b : B) :
  mapM f l = Ok bs -> nth_error bs i = Some b ->
  exists a, nth_error l i = Some a /\ f a = Ok b.
Proof.
  revert bs i. induction l as [| a t IH]; intros bs i H Hb; simpl in H.
  - inversion H; subst. destruct i; discriminate.
  - bind_inv H. bind_inv H. inversion H; subst.
    destruct i as [| j]; simpl in *.
    + inversion Hb; subst. eauto.
    + eapply IH; eauto.
Qed.

Lemma mapM_in {A B : Type} (f : A -> result B) (l : list A) (bs : list B) (b : B) :
  mapM f l = Ok bs -> In b bs -> exists a, In a l /\ f a = Ok b.
Proof.
  intros H Hin. apply In_nth_error in Hin as (i & Hi).
  destruct (mapM_nth f l bs i b H Hi) as (a & Ha & Hf).
  exists a. split; [eapply nth_error_In; eauto | exact Hf].
Qed.

(** An invariant kept by every step of a monadic fold is kept by the fold. *)
Lemma foldM_invariant {A S : Type} (P : S -> Prop) (f : S -> A -> result S) :
  (forall s a s', P s -> f s a = Ok s' -> P s') ->
  forall (l : list A) (s s' : S), P s -> foldM f l s = Ok s' -> P s'.
Proof.
  intros Hstep l. induction l as [| a t IH]; intros s s' Hs H; simpl in H.
  - inversion H; subst. exact Hs.
  - bind_inv H. eapply IH; [| exact H]. eapply Hstep; eauto.
Qed.

(** ** The shape of the tree *)

Lemma init_constructed (startp goalp : point) (obs : list obstacle) (area : R * R)
    (e : R) (rate : Z) (it : nat) (self : InformedRRTStar) :
  init startp goalp obs area e rate it = Ok self -> constructed self.
Proof. intros H. inversion H; subst. split; reflexivity. Qed.

Lemma line_cost_nonneg (a b : Node) : 0 <= line_cost a b.
Proof. apply sqrt_pos. Qed.

Lemma line_cost_sym (a b : Node) : line_cost a b = line_cost b a.
Proof. unfold line_cost, sqr. f_equal. ring. Qed.

Lemma line_cost_position (a a' b b' : Node) :
  x a = x a' -> y a = y a' -> x b = x b' -> y b = y b' ->
  line_cost a b = line_cost a' b'.
Proof. intros H1 H2 H3 H4. unfold line_cost. now rewrite H1, H2, H3, H4. Qed.

Lemma line_cost_steer (self : InformedRRTStar) (theta : R) (nind : nat) (nd : Node) :
  0 <= expand_dis self ->
  line_cost nd (get_new_node self theta nind nd) = expand_dis self.
Proof.
  intros He. unfold line_cost, get_new_node, sqr. cbn [x y].
  pose proof (sin2_cos2 theta) as Hsc. unfold Rsqr in Hsc.
  replace ((x nd - (x nd + expand_dis self * cos theta))
           * (x nd - (x nd + expand_dis self * cos theta))
           + (y nd - (y nd + expand_dis self * sin theta))
             * (y nd - (y nd + expand_dis self * sin theta)))
    with (expand_dis self * expand_dis self
          * (sin theta * sin theta + cos theta * cos theta)) by ring.
  rewrite Hsc, Rmult_1_r. now apply sqrt_square.
Qed.

Lemma climbs_functional (nl : list Node) (i k k' : nat) :
  climbs nl i k -> climbs nl i k' -> k = k'.
Proof.
  intros H. revert k'. induction H as [i nd Hi Hp | i nd p k Hi Hp Hc IH]; intros k' H'.
  - inversion H' as [j nd' Hj Hq | j nd' q m Hj Hq Hm]; subst; [reflexivity |].
    congruence.
  - inversion H' as [j nd' Hj Hq | j nd' q m Hj Hq Hm]; subst; [congruence |].
    f_equal. apply IH. congruence.
Qed.




Lemma climbs_app (nl : list Node) (nd : Node) (i k : nat) :
  climbs nl i k -> climbs (nl ++ [nd]) i k.
Proof.
  intros H. induction H as [i n0 Hi Hp | i n0 p k Hi Hp Hc IH].
  - eapply climbs_root; [| exact Hp]. rewrite nth_error_app1; [exact Hi |].
    apply nth_error_Some. congruence.
  - eapply climbs_step; [| exact Hp | exact IH]. rewrite nth_error_app1; [exact Hi |].
    apply nth_error_Some. congruence.
Qed.

Lemma tree_ok_initial (self : InformedRRTStar) :
  constructed self -> tree_ok self [start self].
Proof.
  intros [Hp Hc]. constructor.
  - exists (start self). repeat split; assumption.
  - intros [| i] nd Hi _; [reflexivity |]. destruct i; discriminate.
  - intros [| i] nd Hi; [| destruct i; discriminate].
    inversion Hi; subst. lra.
  - intros [| i] nd p Hi Hpar; [| destruct i; discriminate].
    inversion Hi; subst. congruence.
  - intros [| i] nd Hi; [| destruct i; discriminate].
    inversion Hi; subst. exists 0%nat. eapply climbs_root; [reflexivity | exact Hp].
Qed.

Lemma nth_error_snoc {A : Type} (l : list A) (a b : A) (i : nat) :
  nth_error (l ++ [a]) i = Some b ->
  (nth_error l i = Some b /\ (i < length l)%nat) \/ (i = length l /\ b = a).
Proof.
  intros H. destruct (Nat.lt_ge_cases i (length l)) as [Hlt | Hge].
  - left. rewrite nth_error_app1 in H by exact Hlt. now split.
  - right. rewrite nth_error_app2 in H by exact Hge.
    destruct (i - length l)%nat as [| j] eqn:Hd; simpl in H.
    + inversion H. split; [lia | reflexivity].
    + destruct j; discriminate.
Qed.

Lemma nth_error_snoc_old {A : Type} (l : list A) (a b : A) (i : nat) :
  nth_error l i = Some b -> nth_error (l ++ [a]) i = Some b.
Proof.
  intros H. rewrite nth_error_app1; [exact H |]. apply nth_error_Some. congruence.
Qed.

(** Appending a node that hangs below an existing one keeps the tree in
    shape. *)
Lemma tree_ok_append (self : InformedRRTStar) (nl : list Node) (nd pn : Node) (p : nat) :
  tree_ok self nl ->
  parent nd = Some p -> nth_error nl p = Some pn ->
  cost pn + line_cost nd pn <= cost nd ->
  tree_ok self (nl ++ [nd]).
Proof.
  intros [Hroot Huniq Hcost Hpar Hclimb] Hp Hpn Hle. constructor.
  - destruct Hroot as (r & Hr & Hrest). exists r. split; [| exact Hrest].
    now apply nth_error_snoc_old.
  - intros i n0 Hi Hnone. apply nth_error_snoc in Hi as [[Hi _] | [_ ->]].
    + eapply Huniq; eauto.
    + congruence.
  - intros i n0 Hi. apply nth_error_snoc in Hi as [[Hi _] | [_ ->]].
    + eapply Hcost; eauto.
    + pose proof (Hcost p pn Hpn). pose proof (line_cost_nonneg nd pn). lra.
  - intros i n0 q Hi Hq. apply nth_error_snoc in Hi as [[Hi _] | [_ ->]].
    + destruct (Hpar i n0 q Hi Hq) as (qn & Hqn & Hqle).
      exists qn. split; [now apply nth_error_snoc_old | exact Hqle].
    + assert (q = p) by congruence. subst q.
      exists pn. split; [now apply nth_error_snoc_old | exact Hle].
  - intros i n0 Hi. apply nth_error_snoc in Hi as [[Hi _] | [-> ->]].
    + destruct (Hclimb i n0 Hi) as (k & Hk). exists k. now apply climbs_app.
    + destruct (Hclimb p pn Hpn) as (k & Hk). exists (S k).
      eapply climbs_step; [| exact Hp | now apply climbs_app].
      rewrite nth_error_app2 by lia. rewrite Nat.sub_diag. reflexivity.
Qed.

(** *** Rewiring one node *)

Section RewireOne.

Variable self : InformedRRTStar.
Variable nl : list Node.
Variables i last : nat.
Variables near new : Node.
Variable scost : R.

Hypothesis Hok : tree_ok self nl.
Hypothesis Hnear : nth_error nl i = Some near.
Hypothesis Hnew : nth_error nl last = Some new.
Hypothesis Hscost : scost = cost new + line_cost near new.
Hypothesis Hless : scost < cost near.

Let near' : Node := mkNode (x near) (y near) scost (Some last).
Let nl' : list Node := setitem nl i near'.

Lemma rewire_one_distinct : i <> last.
Proof.
  intros ->. assert (near = new) by congruence. subst new.
  pose proof (line_cost_nonneg near near). lra.
Qed.

Lemma rewire_one_lookup (j : nat) (nd : Node) :
  nth_error nl' j = Some nd ->
  (j = i /\ nd = near') \/ (j <> i /\ nth_error nl j = Some nd).
Proof.
  intros H. destruct (Nat.eq_dec j i) as [-> | Hne].
  - left. split; [reflexivity |]. unfold nl' in H.
    rewrite nth_error_setitem_eq in H; [congruence |].
    apply nth_error_Some. congruence.
  - right. split; [exact Hne |]. unfold nl' in H.
    now rewrite nth_error_setitem_neq in H by congruence.
Qed.

Lemma rewire_one_keep (j : nat) (nd : Node) :
  j <> i -> nth_error nl j = Some nd -> nth_error nl' j = Some nd.
Proof. intros Hne H. unfold nl'. now rewrite nth_error_setitem_neq by congruence. Qed.

Lemma rewire_one_at : nth_error nl' i = Some near'.
Proof.
  unfold nl'. apply nth_error_setitem_eq. apply nth_error_Some. congruence.
Qed.

(** A node cheaper than the rewired one keeps its whole way to the root. *)
Lemma rewire_one_climbs_cheap (v k : nat) :
  climbs nl v k ->
  forall nd, nth_error nl v = Some nd -> cost nd < cost near -> climbs nl' v k.
Proof.
  intros H. induction H as [v n0 Hv Hp | v n0 p k Hv Hp Hc IH]; intros nd Hnd Hlt.
  - assert (n0 = nd) by congruence. subst n0.
    eapply climbs_root; [| exact Hp]. apply rewire_one_keep; [| exact Hv].
    intros ->. assert (nd = near) by congruence. subst. lra.
  - assert (n0 = nd) by congruence. subst n0.
    destruct (ok_parent _ _ Hok v nd p Hv Hp) as (pn & Hpn & Hle).
    eapply climbs_step; [| exact Hp |].
    + apply rewire_one_keep; [| exact Hv].
      intros ->. assert (nd = near) by congruence. subst. lra.
    + apply (IH pn Hpn). pose proof (line_cost_nonneg nd pn). lra.
Qed.

Lemma rewire_one_climbs_new : exists k, climbs nl' last k.
Proof.
  destruct (ok_climbs _ _ Hok last new Hnew) as (k & Hk). exists k.
  apply (rewire_one_climbs_cheap last k Hk new Hnew).
  pose proof (line_cost_nonneg near new). lra.
Qed.

Lemma rewire_one_climbs (v k : nat) :
  climbs nl v k -> exists k', climbs nl' v k'.
Proof.
  destruct rewire_one_climbs_new as (kn & Hkn).
  assert (Hi : climbs nl' i (S kn)).
  { eapply climbs_step; [apply rewire_one_at | reflexivity | exact Hkn]. }
  intros H. induction H as [v n0 Hv Hp | v n0 p k Hv Hp Hc IH].
  - destruct (Nat.eq_dec v i) as [-> | Hne]; [eauto |].
    exists 0%nat. eapply climbs_root; [| exact Hp]. now apply rewire_one_keep.
  - destruct (Nat.eq_dec v i) as [-> | Hne]; [eauto |].
    destruct IH as (k' & Hk'). exists (S k').
    eapply climbs_step; [| exact Hp | exact Hk']. now apply rewire_one_keep.
Qed.

Lemma tree_ok_rewire_one : tree_ok self nl'.
Proof.
  pose proof rewire_one_distinct as Hdist.
  assert (Hsc0 : 0 <= scost).
  { pose proof (ok_cost _ _ Hok last new Hnew). pose proof (line_cost_nonneg near new). lra. }
  constructor.
  - destruct (ok_root _ _ Hok) as (r & Hr & Hp & Hc & Hxy). exists r.
    split; [| repeat split; tauto]. apply rewire_one_keep; [| exact Hr].
    intros <-. assert (r = near) by congruence. subst. lra.
  - intros j nd Hj Hnone. apply rewire_one_lookup in Hj as [[-> ->] | [Hne Hj]].
    + discriminate.
    + eapply (ok_unique_root _ _ Hok); eauto.
  - intros j nd Hj. apply rewire_one_lookup in Hj as [[-> ->] | [Hne Hj]].
    + exact Hsc0.
    + eapply (ok_cost _ _ Hok); eauto.
  - intros j nd p Hj Hp. apply rewire_one_lookup in Hj as [[-> ->] | [Hne Hj]].
    + cbn [parent] in Hp. inversion Hp; subst p. exists new. split.
      * apply rewire_one_keep; [congruence | exact Hnew].
      * rewrite (line_cost_position near' near new new); try reflexivity.
        unfold near'. cbn [cost]. rewrite Hscost. lra.
    + destruct (ok_parent _ _ Hok j nd p Hj Hp) as (pn & Hpn & Hle).
      destruct (Nat.eq_dec p i) as [-> | Hpi].
      * exists near'. split; [apply rewire_one_at |].
        assert (pn = near) by congruence. subst pn.
        rewrite (line_cost_position nd nd near' near); try reflexivity.
        unfold near'. cbn [cost]. lra.
      * exists pn. split; [now apply rewire_one_keep | exact Hle].
  - intros j nd Hj.
    assert (Hold : exists nd0, nth_error nl j = Some nd0).
    { apply rewire_one_lookup in Hj as [[-> _] | [_ Hj]]; eauto. }
    destruct Hold as (nd0 & Hnd0).
    destruct (ok_climbs _ _ Hok j nd0 Hnd0) as (k & Hk).
    eapply rewire_one_climbs; eauto.
Qed.

End RewireOne.

(** *** Rewiring, choosing a parent, one iteration *)

Lemma rewire_step_inv (self : InformedRRTStar) (newNode : Node) (n_node : nat)
    (nl nl' : list Node) (i : nat) :
  rewire_inv self newNode n_node nl ->
  rewire_step self newNode n_node nl i = Ok nl' ->
  rewire_inv self newNode n_node nl'.
Proof.
  intros Hinv H. pose proof Hinv as (Hok & Hlen & Hlast). unfold rewire_step in H.
  bind_inv H. rename v into nearNode. apply getitem_ok in Hv.
  fold (line_cost nearNode newNode) in H.
  destruct (Rlt_dec (cost newNode + line_cost nearNode newNode) (cost nearNode))
    as [Hlt | Hge]; [| inversion H; subst nl'; exact Hinv].
  bind_inv H. destruct v; [| inversion H; subst nl'; exact Hinv].
  inversion H; subst nl'; clear H.
  pose proof (rewire_one_distinct nl i (n_node - 1) nearNode newNode _
                Hv Hlast eq_refl Hlt) as Hdist.
  split; [| split].
  - eapply tree_ok_rewire_one; eauto.
  - now rewrite length_setitem.
  - rewrite nth_error_setitem_neq by exact Hdist. exact Hlast.
Qed.

Lemma rewire_inv_kept (self : InformedRRTStar) (newNode : Node)
    (nl nl' : list Node) (nearInds : list nat) :
  tree_ok self nl -> nth_error nl (length nl - 1) = Some newNode ->
  rewire self nl newNode nearInds = Ok nl' ->
  rewire_inv self newNode (length nl) nl'.
Proof.
  intros Hok Hlast H. unfold rewire in H.
  eapply (foldM_invariant (rewire_inv self newNode (length nl))); [| | exact H].
  - intros s a s' Hs Hstep. eapply rewire_step_inv; eauto.
  - split; [exact Hok | split; [reflexivity | exact Hlast]].
Qed.

(** [choose_parent] either leaves the node as steered or hangs it below a
    candidate, at that candidate's cost plus the distance to it. *)
Lemma choose_parent_spec (self : InformedRRTStar) (nl : list Node)
    (newNode chosen : Node) (nearInds : list nat) :
  choose_parent self nl newNode nearInds = Ok chosen ->
  chosen = newNode
  \/ exists p pn,
       In p nearInds /\ nth_error nl p = Some pn
       /\ chosen = mkNode (x newNode) (y newNode)
                          (cost pn + line_cost newNode pn) (Some p).
Proof.
  intros H. unfold choose_parent in H.
  destruct nearInds as [| i0 rest]; [inversion H; now left |].
  remember (i0 :: rest) as inds eqn:Hinds. clear Hinds.
  bind_inv H. rename v into dList, Hv into HdList.
  bind_inv H. rename v into minCost, Hv into Hmin.
  bind_inv H. rename v into k, Hv into Hk.
  bind_inv H. rename v into minInd, Hv into HminInd.
  destruct minCost as [c |]; [| inversion H; now left].
  inversion H; subst chosen; clear H. right.
  apply ext_index_spec in Hk. apply getitem_ok in HminInd.
  destruct (mapM_nth _ _ _ _ _ HdList Hk) as (j & Hj & Hcost).
  assert (j = minInd) by congruence. subst j.
  unfold parent_cost in Hcost. bind_inv Hcost. rename v into ni.
  apply getitem_ok in Hv. bind_inv Hcost.
  destruct v; inversion Hcost as [Hc]; subst c.
  exists minInd, ni. repeat split; [eapply nth_error_In; eauto | exact Hv].
Qed.

Lemma tree_ok_insert (self : InformedRRTStar) (nl : list Node) (theta : R)
    (nind : nat) (nearestNode chosen : Node) (nearInds : list nat) :
  0 <= expand_dis self ->
  tree_ok self nl ->
  nth_error nl nind = Some nearestNode ->
  choose_parent self nl (get_new_node self theta nind nearestNode) nearInds = Ok chosen ->
  tree_ok self (nl ++ [chosen]).
Proof.
  intros He Hok Hnear H. apply choose_parent_spec in H as [-> | (p & pn & _ & Hpn & ->)].
  - eapply tree_ok_append; [exact Hok | reflexivity | exact Hnear |].
    rewrite line_cost_sym, line_cost_steer by exact He. cbn [cost get_new_node]. lra.
  - eapply tree_ok_append; [exact Hok | reflexivity | exact Hpn |].
    cbn [cost]. apply Rle_refl.
Qed.

Lemma check_goal_node_list (self : InformedRRTStar) (st st' : State) (nd : Node) :
  check_goal self st nd = Ok st' -> node_list st' = node_list st.
Proof.
  intros H. unfold check_goal in H.
  destruct (is_near_goal self nd); [| inversion H; reflexivity].
  bind_inv H.
  destruct (ext_ltb _ _); inversion H; reflexivity.
Qed.

Lemma tree_ok_iteration (self : InformedRRTStar) (su : Setup) (st st' : State)
    (dr : Draws) :
  0 <= expand_dis self ->
  tree_ok self (node_list st) ->
  iteration self su st dr = Ok st' ->
  tree_ok self (node_list st').
Proof.
  intros He Hok H. unfold iteration in H.
  bind_inv H. rename v into rnd.
  bind_inv H. rename v into nind.
  bind_inv H. rename v into nearestNode, Hv1 into Hnearest.
  apply getitem_ok in Hnearest.
  bind_inv H. rename v into isCollisionEx.
  destruct (collision_check _ _ && isCollisionEx);
    [| inversion H; subst; exact Hok].
  bind_inv H. rename v into nearInds.
  bind_inv H. rename v into chosen, Hv3 into Hchosen.
  bind_inv H. rename v into nl', Hv3 into Hrewire.
  apply check_goal_node_list in H. cbn [node_list] in H. rewrite H.
  pose proof (tree_ok_insert _ _ _ _ _ _ _ He Hok Hnearest Hchosen) as Hins.
  eapply rewire_inv_kept in Hrewire; [apply Hrewire | exact Hins |].
  rewrite length_app, nth_error_app2 by (simpl; lia).
  simpl length. replace (length (node_list st) + 1 - 1 - length (node_list st))%nat
    with 0%nat by lia. reflexivity.
Qed.

(** ** Runs of the growth loop *)

Lemma search_state_is_run (svd : vec3 -> mat3) (self : InformedRRTStar)
    (draws : nat -> Draws) :
  search_state svd self draws = run svd self draws (max_iter self).
Proof. reflexivity. Qed.

Lemma run_invariant (P : State -> Prop) (svd : vec3 -> mat3)
    (self : InformedRRTStar) (draws : nat -> Draws) (n : nat) (st : State) :
  P (initial_state self) ->
  (forall su s dr s', setup svd self = Ok su -> P s ->
                      iteration self su s dr = Ok s' -> P s') ->
  run svd self draws n = Ok st -> P st.
Proof.
  intros Hinit Hstep H. unfold run in H. bind_inv H. rename v into su.
  eapply (foldM_invariant P); [| exact Hinit | exact H].
  intros s a s' Hs Ha. eapply Hstep; eauto.
Qed.

Lemma run_tree_ok (svd : vec3 -> mat3) (self : InformedRRTStar)
    (draws : nat -> Draws) (n : nat) (st : State) :
  constructed self -> 0 <= expand_dis self ->
  run svd self draws n = Ok st -> tree_ok self (node_list st).
Proof.
  intros Hc He H.
  apply (run_invariant (fun s => tree_ok self (node_list s)) svd self draws n st);
    [now apply tree_ok_initial | | exact H].
  intros su s dr s' _ Hs Hit. eapply tree_ok_iteration; eauto.
Qed.



(** ** Evaluating the loop on concrete configurations *)

(** One pass through the loop body in which the steered node is accepted,
    cut into the calls it makes. *)
Lemma iteration_accept (self : InformedRRTStar) (su : Setup) (st st' : State)
    (dr : Draws) (rnd : point) (nind : nat) (nearestNode newNode chosen : Node)
    (nearInds : list nat) (nl' : list Node) :
  informed_sample self (cBest st) (cMin su) (xCenter su) (C su) dr = Ok rnd ->
  get_nearest_list_index (node_list st) rnd = Ok nind ->
  nth_error (node_list st) nind = Some nearestNode ->
  get_new_node self (atan2 (snd rnd - y nearestNode) (fst rnd - x nearestNode))
               nind nearestNode = newNode ->
  collision_check newNode (obstacle_list self) = true ->
  (forall theta d, check_collision_extend self nearestNode theta d = Ok true) ->
  find_near_nodes (node_list st) newNode = Ok nearInds ->
  choose_parent self (node_list st) newNode nearInds = Ok chosen ->
  rewire self (node_list st ++ [chosen]) chosen nearInds = Ok nl' ->
  check_goal self (mkState nl' (cBest st) (pathLen st) (path st) (recorded st)) chosen
    = Ok st' ->
  iteration self su st dr = Ok st'.
Proof.
  intros Hrnd Hnind Hnear Hnew Hfree Hext Hinds Hchosen Hrewire Hgoal.
  unfold iteration. rewrite Hrnd. cbn [bind]. rewrite Hnind. cbn [bind].
  apply getitem_ok in Hnear. rewrite Hnear. cbn [bind].
  rewrite Hnew, Hext. cbn [bind]. rewrite Hfree. cbn [andb].
  rewrite Hinds. cbn [bind]. rewrite Hchosen. cbn [bind].
  rewrite Hrewire. cbn [bind]. exact Hgoal.
Qed.

Lemma extend_loop_no_obstacles (self : InformedRRTStar) (theta : R) (n : nat) :
  obstacle_list self = [] ->
  forall nd, fst (extend_loop self theta n nd) = true.
Proof.
  intros Hobs. induction n as [| n IH]; intros nd; [reflexivity |].
  cbn [extend_loop]. rewrite Hobs. cbn [collision_check negb].
  specialize (IH (advance self theta nd)).
  destruct (extend_loop self theta n (advance self theta nd)). exact IH.
Qed.

Lemma check_collision_extend_no_obstacles (self : InformedRRTStar) (nd : Node)
    (theta d : R) :
  obstacle_list self = [] -> expand_dis self <> 0 ->
  check_collision_extend self nd theta d = Ok true.
Proof.
  intros Hobs He. unfold check_collision_extend. rewrite pydiv_ok by exact He.
  cbn [bind]. now rewrite extend_loop_no_obstacles.
Qed.

Lemma sqrt_value (a b : R) : 0 <= b -> a = b * b -> sqrt a = b.
Proof. intros Hb ->. now apply sqrt_square. Qed.

Lemma sqrt_upper (a b : R) : 0 <= b -> a <= b * b -> sqrt a <= b.
Proof.
  intros Hb Hab. rewrite <- (sqrt_square b Hb). apply sqrt_le_1_alt. exact Hab.
Qed.

Lemma sqrt_lower (a b : R) : 0 <= b -> b * b <= a -> b <= sqrt a.
Proof.
  intros Hb Hab. rewrite <- (sqrt_square b Hb). apply sqrt_le_1_alt. exact Hab.
Qed.

Lemma atan2_east (py px : R) : py = 0 -> 0 < px -> atan2 py px = 0.
Proof.
  intros -> Hpx. unfold atan2. destruct (Rlt_dec 0 px); [| contradiction].
  unfold Rdiv. rewrite Rmult_0_l. apply atan_0.
Qed.

Lemma atan2_north (py px : R) : px = 0 -> 0 < py -> atan2 py px = PI / 2.
Proof.
  intros -> Hpy. unfold atan2.
  destruct (Rlt_dec 0 0); [lra |]. destruct (Rlt_dec 0 py); [reflexivity | contradiction].
Qed.

(** Towards negative x and non-negative y, by the ratio [t = py / px] and
    the length [h] of the hypotenuse over [1] and [t]. *)
Lemma atan2_north_west (py px t h : R) :
  px < 0 -> 0 <= py -> t = py / px -> 0 < h -> 1 + t * t = h * h ->
  cos (atan2 py px) = - (1 / h) /\ sin (atan2 py px) = - (t / h).
Proof.
  intros Hpx Hpy Ht Hh Hhyp. unfold atan2.
  destruct (Rlt_dec 0 px); [lra |]. destruct (Rlt_dec px 0); [| contradiction].
  destruct (Rle_dec 0 py); [| contradiction].
  rewrite <- Ht, neg_cos, neg_sin, cos_atan, sin_atan.
  assert (Hs : sqrt (1 + t²) = h).
  { apply sqrt_value; [lra |]. unfold Rsqr. exact Hhyp. }
  rewrite Hs. split; reflexivity.
Qed.

Lemma ln_2_lower : 1 / 2 < ln 2.
Proof. pose proof ln_lt_2. lra. Qed.

Lemma ln_upper (a b : R) : 0 < a -> a < exp b -> ln a < b.
Proof.
  intros Ha Hab. rewrite <- (ln_exp b). now apply ln_increasing.
Qed.

(** *** The run along the x axis *)

Ltac fields :=
  cbn [x y cost parent start goal min_rand max_rand expand_dis goal_sample_rate
       max_iter obstacle_list node_list cBest pathLen path recorded cMin xCenter C
       fst snd length app map filter bind Node_init initial_state] in *.

Ltac req :=
  match goal with
  | |- @eq R _ _ => lra
  | |- _ => first [progress f_equal; req | reflexivity]
  end.

Lemma line_free (nd : Node) (theta d : R) :
  check_collision_extend line_planner nd theta d = Ok true.
Proof. apply check_collision_extend_no_obstacles; [reflexivity | simpl; lra]. Qed.

Lemma identity_first_column : first_column (identity_rotation (1, 0, 0)) = (1, 0, 0).
Proof. reflexivity. Qed.

Lemma check_goal_found (self : InformedRRTStar) (nl : list Node) (cb : ext)
    (p : option (list point)) (rec : list R) (nd : Node)
    (course : list point) (len : R) :
  is_near_goal self nd = true ->
  get_final_course self (length nl) nl (length nl - 1) = Ok course ->
  get_path_len course = len ->
  check_goal self (mkState nl cb Inf p rec) nd
  = Ok (mkState nl (Fin len) Inf (Some course) (rec ++ [len])).
Proof.
  intros Hnear Hcourse Hlen. unfold check_goal. cbn [node_list pathLen recorded].
  rewrite Hnear, Hcourse. cbn [bind]. rewrite Hlen. reflexivity.
Qed.

Lemma check_goal_far (self : InformedRRTStar) (st : State) (nd : Node) :
  is_near_goal self nd = false -> check_goal self st nd = Ok st.
Proof. intros H. unfold check_goal. now rewrite H. Qed.

Lemma is_near_goal_true (self : InformedRRTStar) (nd : Node) (d : R) :
  line_cost nd (goal self) = d -> d < expand_dis self -> is_near_goal self nd = true.
Proof.
  intros <- Hlt. unfold is_near_goal.
  destruct (Rlt_dec _ _); [reflexivity | contradiction].
Qed.

Lemma is_near_goal_false (self : InformedRRTStar) (nd : Node) (d : R) :
  d <= line_cost nd (goal self) -> expand_dis self <= d -> is_near_goal self nd = false.
Proof.
  intros Hle Hge. unfold is_near_goal.
  destruct (Rlt_dec _ _); [lra | reflexivity].
Qed.

Section LineRun.

Variable svd : vec3 -> mat3.
Hypothesis Hcolumn : first_column (svd (1, 0, 0)) = (1, 0, 0).

Lemma line_setup_ok : setup svd line_planner = Ok (line_setup svd).
Proof.
  unfold setup, line_planner. cbn [start goal x y Node_init].
  assert (Hc : sqrt (sqr (0 - 3 / 2) + sqr (0 - 0)) = 3 / 2).
  { apply sqrt_value; unfold sqr; lra. }
  rewrite Hc. rewrite !pydiv_ok by lra. cbn [bind]. unfold line_setup.
  replace ((3 / 2 - 0) / (3 / 2)) with 1 by lra.
  replace ((0 - 0) / (3 / 2)) with 0 by lra.
  req.
Qed.

Lemma line_iteration_0 :
  iteration line_planner (line_setup svd) (initial_state line_planner) (line_draws 0)
  = Ok line_state_1.
Proof.
  eapply (iteration_accept _ _ _ _ _ (3 / 2, 0) 0 (Node_init 0 0) line_node_1
            line_node_1 [] [Node_init 0 0; line_node_1]).
  - reflexivity.
  - apply get_nearest_single.
  - reflexivity.
  - cbn [fst snd x y Node_init]. rewrite atan2_east by lra.
    unfold get_new_node, line_node_1. cbn [x y cost Node_init expand_dis line_planner].
    rewrite cos_0, sin_0. req.
  - reflexivity.
  - intros. apply line_free.
  - unfold find_near_nodes, line_planner. fields.
    destruct (near_radius_ok 1) as (r & Hr & Hr0 & Hrr); [lia |].
    rewrite Hr. cbn [bind]. cbn [INR] in Hrr. rewrite ln_1 in Hrr.
    unfold near_dlist, line_node_1. fields. unfold sqr.
    rdec. reflexivity.
  - reflexivity.
  - reflexivity.
  - unfold line_state_1. fields.
    apply (check_goal_found line_planner _ _ _ [] line_node_1
             [(3 / 2, 0); (1, 0); (0, 0)] (3 / 2)).
    + apply (is_near_goal_true _ _ (1 / 2)); [| simpl; lra].
      unfold line_cost, line_node_1, line_planner. fields.
      apply sqrt_value; unfold sqr; lra.
    + reflexivity.
    + unfold get_path_len, get_path_len_loop. cbn [fold_left fst snd].
      replace (sqrt (sqr (1 - 3 / 2) + sqr (0 - 0))) with (1 / 2)
        by (symmetry; apply sqrt_value; unfold sqr; lra).
      replace (sqrt (sqr (0 - 1) + sqr (0 - 0))) with 1
        by (symmetry; apply sqrt_value; unfold sqr; lra).
      lra.
Qed.

Lemma line_sample_1 :
  informed_sample line_planner (Fin (3 / 2)) (3 / 2) (3 / 4, 0, 0)
                  (svd (1, 0, 0)) (line_draws 1) = Ok (9 / 8, 0).
Proof.
  destruct (svd (1, 0, 0)) as [[[[c00 c01] c02] [[c10 c11] c12]] [[c20 c21] c22]].
  cbn [first_column] in Hcolumn. inversion Hcolumn; subst c00 c10 c20.
  unfold informed_sample.
  replace (3 / 2 * (3 / 2) - 3 / 2 * (3 / 2)) with 0 by lra.
  rewrite pysqrt_ok by lra. rewrite sqrt_0. cbn [bind].
  unfold sample_unit_ball, line_draws. cbn [ball_a ball_b].
  destruct (Rlt_dec (1 / 2) 0); [lra |].
  rewrite pydiv_ok by lra. cbn [bind].
  replace (2 * PI * 0 / (1 / 2)) with 0 by (unfold Rdiv; ring).
  rewrite cos_0, sin_0.
  unfold mat_diag, mat_vec, vec_add, dot3.
  req.
Qed.

Lemma line_iteration_1 :
  iteration line_planner (line_setup svd) line_state_1 (line_draws 1) = Ok line_state_2.
Proof.
  eapply (iteration_accept _ _ _ _ _ (9 / 8, 0) 1 line_node_1 (mkNode 2 0 2 (Some 1%nat))
            line_node_2 [0%nat; 1%nat] [Node_init 0 0; line_node_1; line_node_2]).
  - apply line_sample_1.
  - unfold get_nearest_list_index, line_state_1, line_node_1. fields.
    cbn [list_min bind]. unfold sqr. rdec. cbn [list_index bind]. rdec. reflexivity.
  - reflexivity.
  - unfold line_node_1. fields. rewrite atan2_east by lra.
    unfold get_new_node, line_planner. fields. rewrite cos_0, sin_0. req.
  - reflexivity.
  - intros. apply line_free.
  - unfold find_near_nodes, line_state_1. fields.
    destruct (near_radius_ok 2) as (r & Hr & Hr0 & Hrr); [lia |].
    rewrite Hr. cbn [bind]. cbn [INR] in Hrr.
    replace (1 + 1) with 2 in Hrr by lra. pose proof ln_2_lower as Hln.
    unfold near_dlist, line_node_1. fields. unfold sqr.
    rdec. cbn [mapM list_index bind]. rdec. reflexivity.
  - unfold choose_parent, parent_cost, line_state_1, line_node_1. fields.
    cbn [mapM getitem nth_error bind]. rewrite !line_free. fields.
    replace (sqrt (sqr (2 - 0) + sqr (0 - 0))) with 2
      by (symmetry; apply sqrt_value; unfold sqr; lra).
    replace (sqrt (sqr (2 - 1) + sqr (0 - 0))) with 1
      by (symmetry; apply sqrt_value; unfold sqr; lra).
    cbn [ext_min bind ext_ltb]. rdec. cbn [ext_index ext_eqb bind]. rdec.
    cbn [bind getitem nth_error]. unfold line_node_2. req.
  - unfold rewire, rewire_step, line_state_1, line_node_1, line_node_2. fields.
    cbn [foldM getitem nth_error bind]. fields.
    replace (sqrt (sqr (0 - 2) + sqr (0 - 0))) with 2
      by (symmetry; apply sqrt_value; unfold sqr; lra).
    rdec. cbn [getitem nth_error bind]. fields.
    replace (sqrt (sqr (1 - 2) + sqr (0 - 0))) with 1
      by (symmetry; apply sqrt_value; unfold sqr; lra).
    rdec. reflexivity.
  - unfold line_state_2, line_state_1. fields.
    apply (check_goal_found line_planner _ _ _ [3 / 2] line_node_2
             [(3 / 2, 0); (2, 0); (0, 0)] (5 / 2)).
    + apply (is_near_goal_true _ _ (1 / 2)); [| simpl; lra].
      unfold line_cost, line_node_2, line_planner. fields.
      apply sqrt_value; unfold sqr; lra.
    + reflexivity.
    + unfold get_path_len, get_path_len_loop. cbn [fold_left fst snd].
      replace (sqrt (sqr (2 - 3 / 2) + sqr (0 - 0))) with (1 / 2)
        by (symmetry; apply sqrt_value; unfold sqr; lra).
      replace (sqrt (sqr (0 - 2) + sqr (0 - 0))) with 2
        by (symmetry; apply sqrt_value; unfold sqr; lra).
      lra.
Qed.

Lemma line_run_1 : run svd line_planner line_draws 1 = Ok line_state_1.
Proof.
  unfold run. rewrite line_setup_ok. cbn [bind seq map foldM].
  rewrite line_iteration_0. reflexivity.
Qed.

Lemma line_run_2 : run svd line_planner line_draws 2 = Ok line_state_2.
Proof.
  unfold run. rewrite line_setup_ok. cbn [bind seq map foldM].
  rewrite line_iteration_0. cbn [bind]. rewrite line_iteration_1. reflexivity.
Qed.

End LineRun.

(** C1, on the code: in this run, whatever basis completes the rotation,
    the first solution has length 3/2 and the second, longer one (5/2)
    still replaces it, because the comparison at line 92 is against
    [pathLen], which stays infinite. *)
Theorem best_cost_overwritten_by_longer_path (svd : vec3 -> mat3) :
  first_column (svd (1, 0, 0)) = (1, 0, 0) ->
  exists st1 st2,
    run svd line_planner line_draws 1 = Ok st1
    /\ search_state svd line_planner line_draws = Ok st2
    /\ cBest st1 = Fin (3 / 2) /\ cBest st2 = Fin (5 / 2)
    /\ recorded st2 = [3 / 2; 5 / 2]
    /\ pathLen st2 = Inf
    /\ 3 / 2 < 5 / 2.
Proof.
  intros Hcol. exists line_state_1, line_state_2.
  split; [exact (line_run_1 svd) |]. split; [exact (line_run_2 svd Hcol) |].
  repeat split; try reflexivity. lra.
Qed.

Lemma best_cost_overwritten_by_longer_path_witness :
  exists st2,
    search_state identity_rotation line_planner line_draws = Ok st2
    /\ recorded st2 = [3 / 2; 5 / 2].
Proof.
  destruct (best_cost_overwritten_by_longer_path identity_rotation
              identity_first_column) as (st1 & st2 & _ & Hrun & _ & _ & Hrec & _).
  exists st2. split; assumption.
Defined.



(** ** Path lengths and the best cost *)




Lemma dist_nonneg (p q : point) : 0 <= dist p q.
Proof. apply sqrt_pos. Qed.






(** What one iteration can do to the best cost. *)
Lemma iteration_best (self : InformedRRTStar) (su : Setup) (st st' : State)
    (dr : Draws) :
  iteration self su st dr = Ok st' ->
  pathLen st' = pathLen st
  /\ ((cBest st' = cBest st /\ path st' = path st /\ recorded st' = recorded st)
      \/ exists course,
           get_final_course self (length (node_list st')) (node_list st')
                            (length (node_list st') - 1) = Ok course
           /\ cBest st' = Fin (get_path_len course)
           /\ path st' = Some course
           /\ recorded st' = recorded st ++ [get_path_len course]
           /\ ext_ltb (Fin (get_path_len course)) (pathLen st) = true).
Proof.
  intros H. unfold iteration in H.
  bind_inv H. bind_inv H. bind_inv H. bind_inv H.
  destruct (collision_check _ _ && v2);
    [| inversion H; subst; split; [reflexivity | left; now repeat split]].
  bind_inv H. bind_inv H. bind_inv H. unfold check_goal in H.
  destruct (is_near_goal self v4);
    [| inversion H; subst; split; [reflexivity | left; now repeat split]].
  cbn [node_list pathLen recorded cBest path] in H. bind_inv H.
  destruct (ext_ltb (Fin (get_path_len v6)) (pathLen st)) eqn:Hlt;
    inversion H; subst; cbn [node_list pathLen recorded cBest path];
    (split; [reflexivity |]).
  - right. exists v6. now repeat split.
  - left. now repeat split.
Qed.

Lemma setup_cMin (svd : vec3 -> mat3) (self : InformedRRTStar) (su : Setup) :
  setup svd self = Ok su ->
  cMin su = sqrt (sqr (x (start self) - x (goal self))
                  + sqr (y (start self) - y (goal self)))
  /\ 0 < cMin su.
Proof.
  intros H. unfold setup in H. bind_inv H. bind_inv H. inversion H; subst su.
  cbn [cMin]. split; [reflexivity |].
  unfold pydiv in Hv. destruct (Req_dec_T _ 0) as [| Hne]; [discriminate |].
  pose proof (sqrt_pos (sqr (x (start self) - x (goal self))
                        + sqr (y (start self) - y (goal self)))). lra.
Qed.




(** ** How long an edge of the tree can be *)

Lemma ln_INR_le (n : nat) : (1 <= n)%nat -> ln (INR n) <= INR n.
Proof.
  intros Hn. assert (Hpos : 0 < INR n) by (apply lt_0_INR; lia).
  pose proof (exp_ineq1_le (INR n)) as Hexp.
  destruct (Rle_lt_dec (ln (INR n)) (INR n)) as [Hle | Hgt]; [exact Hle |].
  apply exp_increasing in Hgt. rewrite exp_ln in Hgt by exact Hpos. lra.
Qed.

(** The near radius never exceeds 50. *)
Lemma near_radius_le_50 (n : nat) (r : R) : near_radius n = Ok r -> 0 <= r <= 50.
Proof.
  intros H.
  assert (Hn : (1 <= n)%nat).
  { destruct n; [| lia]. unfold near_radius, pylog in H. cbn [INR] in H.
    destruct (Rlt_dec 0 0); [lra | discriminate]. }
  destruct (near_radius_ok n Hn) as (r' & Hr' & Hr0 & Hrr).
  assert (r' = r) by congruence. subst r'.
  assert (Hpos : 0 < INR n) by (apply lt_0_INR; lia).
  assert (Hq : ln (INR n) / INR n <= 1).
  { apply (Rmult_le_reg_r (INR n)); [exact Hpos |].
    unfold Rdiv. rewrite Rmult_assoc, Rinv_l by lra.
    pose proof (ln_INR_le n Hn). lra. }
  split; [exact Hr0 | nra].
Qed.

(** Every index [find_near_nodes] returns is the index of a node within
    the radius of the new node. *)
Lemma find_near_nodes_within (nl : list Node) (newNode : Node) (inds : list nat) :
  find_near_nodes nl newNode = Ok inds ->
  exists r, near_radius (length nl) = Ok r
    /\ forall i, In i inds ->
         exists nd, nth_error nl i = Some nd /\ line_cost nd newNode <= r.
Proof.
  intros H. unfold find_near_nodes in H. bind_inv H. rename v into r.
  exists r. split; [exact Hv |]. intros i Hi.
  destruct (mapM_in _ _ _ _ H Hi) as (d & Hd & Hidx).
  apply filter_In in Hd as [_ Hle]. destruct (Rle_dec d (r * r)); [| discriminate].
  apply list_index_spec in Hidx. unfold near_dlist in Hidx.
  rewrite nth_error_map in Hidx.
  destruct (nth_error nl i) as [nd |]; [| discriminate].
  inversion Hidx as [Hdist]. exists nd. split; [reflexivity |].
  unfold line_cost. rewrite Hdist.
  destruct (near_radius_le_50 _ _ Hv) as [Hr0 _]. now apply sqrt_upper.
Qed.

Lemma foldM_invariant_in {A S : Type} (P : S -> Prop) (f : S -> A -> result S)
    (l : list A) :
  (forall s a s', In a l -> P s -> f s a = Ok s' -> P s') ->
  forall (s s' : S), P s -> foldM f l s = Ok s' -> P s'.
Proof.
  induction l as [| a t IH]; intros Hstep s s' Hs H; simpl in H.
  - inversion H; subst. exact Hs.
  - bind_inv H. eapply IH; [| | exact H].
    + intros s0 a0 s0' Hin. apply Hstep. now right.
    + eapply Hstep; [now left | exact Hs | exact Hv].
Qed.




(** ** The shape of the returned path *)




(** *** The run with a detour *)

Lemma detour_setup_ok : setup identity_rotation detour_planner = Ok detour_setup.
Proof.
  unfold setup, detour_planner. fields.
  assert (Hc : sqrt (sqr (0 - 1000) + sqr (0 - 0)) = 1000).
  { apply sqrt_value; unfold sqr; lra. }
  rewrite Hc. rewrite !pydiv_ok by lra. cbn [bind]. unfold detour_setup, identity_rotation.
  req.
Qed.

Lemma detour_free (nd : Node) (theta d : R) :
  check_collision_extend detour_planner nd theta d = Ok true.
Proof. apply check_collision_extend_no_obstacles; [reflexivity | simpl; lra]. Qed.

Lemma detour_far (nd : Node) :
  0 <= x nd <= 50 -> is_near_goal detour_planner nd = false.
Proof.
  intros Hx. apply (is_near_goal_false _ _ 950); [| simpl; lra].
  unfold line_cost, detour_planner. fields. apply sqrt_lower; [lra |].
  pose proof (sqr_nonneg (y nd - 0)). unfold sqr in *. nra.
Qed.

Lemma detour_iteration_0 :
  iteration detour_planner detour_setup (detour_state [Node_init 0 0]) (detour_draws 0)
  = Ok (detour_state [Node_init 0 0; detour_a]).
Proof.
  eapply (iteration_accept _ _ _ _ _ (1000, 0) 0 (Node_init 0 0) detour_a
            detour_a [] [Node_init 0 0; detour_a]).
  - reflexivity.
  - apply get_nearest_single.
  - reflexivity.
  - fields. rewrite atan2_east by lra.
    unfold get_new_node, detour_a, detour_planner. fields. rewrite cos_0, sin_0. req.
  - reflexivity.
  - intros. apply detour_free.
  - unfold find_near_nodes, detour_state. fields.
    destruct (near_radius_ok 1) as (r & Hr & Hr0 & Hrr); [lia |].
    rewrite Hr. cbn [bind]. cbn [INR] in Hrr. rewrite ln_1 in Hrr.
    unfold near_dlist, detour_a. fields. unfold sqr.
    rdec. reflexivity.
  - reflexivity.
  - reflexivity.
  - unfold detour_state. fields. apply check_goal_far. apply detour_far. simpl. lra.
Qed.

Lemma ln_2_upper : ln 2 < 4 / 5.
Proof.
  apply ln_upper; [lra |].
  replace (4 / 5) with (1 / 5 + 1 / 5 + (1 / 5 + 1 / 5)) by lra.
  rewrite !exp_plus. pose proof (exp_ineq1 (1 / 5)) as H.
  set (e := exp (1 / 5)) in *.
  assert (H1 : 6 / 5 < e) by lra.
  assert (H2 : 36 / 25 < e * e) by nra.
  nra.
Qed.

Lemma detour_iteration_1 :
  iteration detour_planner detour_setup (detour_state [Node_init 0 0; detour_a])
            (detour_draws 1)
  = Ok (detour_state [Node_init 0 0; detour_a; detour_b]).
Proof.
  eapply (iteration_accept _ _ _ _ _ (46, 3) 1 detour_a detour_b
            detour_b [] [Node_init 0 0; detour_a; detour_b]).
  - unfold detour_state. fields.
    unfold informed_sample, sample_free_space, uniform, draws_uniform.
    cbn [detour_draws randint_0_100 uniform_1 uniform_2 detour_planner
         goal_sample_rate min_rand max_rand].
    change (10 <? 50)%Z with true. cbv iota. req.
  - unfold get_nearest_list_index, detour_state, detour_a. fields.
    cbn [list_min bind]. unfold sqr. rdec. cbn [list_index bind]. rdec. reflexivity.
  - reflexivity.
  - unfold detour_a. fields.
    destruct (atan2_north_west (3 - 0) (46 - 50) (- (3 / 4)) (5 / 4))
      as [Hcos Hsin]; try lra.
    unfold get_new_node, detour_b, detour_planner. fields. rewrite Hcos, Hsin. req.
  - reflexivity.
  - intros. apply detour_free.
  - unfold find_near_nodes, detour_state. fields.
    destruct (near_radius_ok 2) as (r & Hr & Hr0 & Hrr); [lia |].
    rewrite Hr. cbn [bind]. cbn [INR] in Hrr.
    replace (1 + 1) with 2 in Hrr by lra. pose proof ln_2_upper as Hln.
    unfold near_dlist, detour_a, detour_b. fields. unfold sqr.
    rdec. reflexivity.
  - reflexivity.
  - reflexivity.
  - unfold detour_state. fields. apply check_goal_far. apply detour_far. simpl. lra.
Qed.

Lemma ln_3_upper : ln 3 < 2.
Proof. apply ln_upper; [lra |]. pose proof (exp_ineq1 2). lra. Qed.

Lemma detour_sample (i : nat) (px py : R) :
  (1 <= i)%nat ->
  -100 + (100 - -100) * uniform_1 (detour_draws i) = px ->
  -100 + (100 - -100) * uniform_2 (detour_draws i) = py ->
  informed_sample detour_planner Inf (cMin detour_setup) (xCenter detour_setup)
                  (C detour_setup) (detour_draws i) = Ok (px, py).
Proof.
  intros Hi <- <-. unfold informed_sample, sample_free_space, uniform, draws_uniform.
  destruct i as [| [| [| i]]]; [lia | | |]; reflexivity.
Qed.

Lemma detour_iteration_2 :
  iteration detour_planner detour_setup
            (detour_state [Node_init 0 0; detour_a; detour_b]) (detour_draws 2)
  = Ok (detour_state [Node_init 0 0; detour_a; detour_b; detour_d]).
Proof.
  eapply (iteration_accept _ _ _ _ _ (10, 31) 2 detour_b detour_d
            detour_d [] [Node_init 0 0; detour_a; detour_b; detour_d]).
  - apply detour_sample; [lia | simpl; lra | simpl; lra].
  - unfold get_nearest_list_index, detour_state, detour_a, detour_b. fields.
    cbn [list_min bind]. unfold sqr. rdec. cbn [list_index bind]. rdec.
    cbn [bind]. rdec. reflexivity.
  - reflexivity.
  - unfold detour_b. fields. rewrite atan2_north by lra.
    unfold get_new_node, detour_d, detour_planner. fields.
    rewrite cos_PI2, sin_PI2. req.
  - reflexivity.
  - intros. apply detour_free.
  - unfold find_near_nodes, detour_state. fields.
    destruct (near_radius_ok 3) as (r & Hr & Hr0 & Hrr); [lia |].
    rewrite Hr. cbn [bind]. cbn [INR] in Hrr.
    replace (1 + 1 + 1) with 3 in Hrr by lra. pose proof ln_3_upper as Hln.
    unfold near_dlist, detour_a, detour_b, detour_d. fields. unfold sqr.
    rdec. reflexivity.
  - reflexivity.
  - reflexivity.
  - unfold detour_state. fields. apply check_goal_far. apply detour_far. simpl. lra.
Qed.

Lemma sqrt_200_bounds : 14 <= sqrt 200 <= 15.
Proof. split; [apply sqrt_lower | apply sqrt_upper]; lra. Qed.

Lemma sqrt_320_bounds : 17 <= sqrt 320 <= 18.
Proof. split; [apply sqrt_lower | apply sqrt_upper]; lra. Qed.

Lemma ln_4 : ln 4 = 2 * ln 2.
Proof. replace 4 with (2 * 2) by lra. rewrite ln_mult by lra. lra. Qed.

Lemma detour_iteration_3 :
  iteration detour_planner detour_setup
            (detour_state [Node_init 0 0; detour_a; detour_b; detour_d]) (detour_draws 3)
  = Ok (detour_state [Node_init 0 0; detour_a; detour_b'; detour_d; detour_n]).
Proof.
  pose proof sqrt_200_bounds as H200. pose proof sqrt_320_bounds as H320.
  eapply (iteration_accept _ _ _ _ _ (26, 7) 1 detour_a (mkNode 2 14 100 (Some 1%nat))
            detour_n [0%nat; 2%nat]
            [Node_init 0 0; detour_a; detour_b'; detour_d; detour_n]).
  - apply detour_sample; [lia | simpl; lra | simpl; lra].
  - unfold get_nearest_list_index, detour_state, detour_a, detour_b, detour_d. fields.
    cbn [list_min bind]. unfold sqr. rdec. cbn [list_index bind]. rdec.
    reflexivity.
  - reflexivity.
  - unfold detour_a. fields.
    destruct (atan2_north_west (7 - 0) (26 - 50) (- (7 / 24)) (25 / 24))
      as [Hcos Hsin]; try lra.
    unfold get_new_node, detour_planner. fields. rewrite Hcos, Hsin. req.
  - reflexivity.
  - intros. apply detour_free.
  - unfold find_near_nodes, detour_state. fields.
    destruct (near_radius_ok 4) as (r & Hr & Hr0 & Hrr); [lia |].
    rewrite Hr. cbn [bind]. cbn [INR] in Hrr.
    replace (1 + 1 + 1 + 1) with 4 in Hrr by lra. rewrite ln_4 in Hrr.
    pose proof ln_2_upper as Hup. pose proof ln_2_lower as Hlo.
    unfold near_dlist, detour_a, detour_b, detour_d. fields. unfold sqr.
    rdec. cbn [mapM list_index bind]. rdec. cbn [bind]. rdec. reflexivity.
  - unfold choose_parent, parent_cost, detour_state, detour_a, detour_b, detour_d. fields.
    cbn [mapM getitem nth_error bind]. rewrite !detour_free. fields.
    replace (sqrt (sqr (2 - 0) + sqr (14 - 0))) with (sqrt 200)
      by (f_equal; unfold sqr; lra).
    replace (sqrt (sqr (2 - 10) + sqr (14 - 30))) with (sqrt 320)
      by (f_equal; unfold sqr; lra).
    cbn [ext_min bind ext_ltb]. rdec. cbn [ext_index ext_eqb bind]. rdec.
    cbn [bind getitem nth_error]. unfold detour_n. req.
  - unfold rewire, rewire_step, detour_state, detour_a, detour_b, detour_b',
      detour_d, detour_n. fields.
    cbn [foldM getitem nth_error bind]. fields.
    replace (sqrt (sqr (0 - 2) + sqr (0 - 14))) with (sqrt 200)
      by (f_equal; unfold sqr; lra).
    rdec. cbn [getitem nth_error bind]. fields.
    replace (sqrt (sqr (10 - 2) + sqr (30 - 14))) with (sqrt 320)
      by (f_equal; unfold sqr; lra).
    rdec. rewrite detour_free. cbn [bind setitem]. req.
  - unfold detour_state. fields. apply check_goal_far. apply detour_far. simpl. lra.
Qed.

Lemma detour_run :
  run identity_rotation detour_planner detour_draws 4
  = Ok (detour_state [Node_init 0 0; detour_a; detour_b'; detour_d; detour_n]).
Proof.
  unfold run. rewrite detour_setup_ok. cbn [bind seq map foldM].
  change (initial_state detour_planner) with (detour_state [Node_init 0 0]).
  rewrite detour_iteration_0. cbn [bind]. rewrite detour_iteration_1. cbn [bind].
  rewrite detour_iteration_2. cbn [bind]. rewrite detour_iteration_3. reflexivity.
Qed.

Lemma detour_search :
  search_state identity_rotation detour_planner detour_draws
  = Ok (detour_state [Node_init 0 0; detour_a; detour_b'; detour_d; detour_n]).
Proof. rewrite search_state_is_run. exact detour_run. Qed.



(** ** Costs and parent handles along a run *)




(** C3 as the code has it: at every point of a run (constructed planner,
    step length not negative) every parent handle is the index of an
    existing node other than the node itself; the node [choose_parent]
    hands over for insertion has a parent among the nodes already in the
    tree, so with a smaller index than its own; [rewire] gives the node it
    changes the index of the newest node as parent. *)
Theorem parent_handles_in_range (svd : vec3 -> mat3)
    (self : InformedRRTStar) (draws : nat -> Draws) (n : nat) (st : State) :
  constructed self -> 0 <= expand_dis self ->
  run svd self draws n = Ok st ->
  (forall i nd p,
      nth_error (node_list st) i = Some nd -> parent nd = Some p ->
      (p < length (node_list st))%nat /\ p <> i)
  /\ (forall theta nind nearestNode nearInds chosen,
        nth_error (node_list st) nind = Some nearestNode ->
        choose_parent self (node_list st)
          (get_new_node self theta nind nearestNode) nearInds = Ok chosen ->
        exists p, parent chosen = Some p /\ (p < length (node_list st))%nat)
  /\ (forall newNode i nearNode nl' changed,
        nth_error (node_list st) i = Some nearNode ->
        rewire_step self newNode (length (node_list st)) (node_list st) i = Ok nl' ->
        nth_error nl' i = Some changed -> changed <> nearNode ->
        parent changed = Some (length (node_list st) - 1)%nat).
Proof.
  intros Hc He H. pose proof (run_tree_ok svd self draws n st Hc He H) as Hok.
  split; [| split].
  - intros i nd p Hi Hp.
    destruct (ok_parent _ _ Hok i nd p Hi Hp) as (pn & Hpn & _).
    split; [apply nth_error_Some; congruence |].
    intros ->. destruct (ok_climbs _ _ Hok i nd Hi) as (k & Hk).
    inversion Hk as [j nd' Hj Hq | j nd' q m Hj Hq Hm]; subst; [congruence |].
    assert (q = i) by congruence. subst q.
    pose proof (climbs_functional _ _ _ _ Hk Hm). lia.
  - intros theta nind nearestNode nearInds chosen Hnear Hch.
    apply choose_parent_spec in Hch as [-> | (p & pn & _ & Hpn & ->)].
    + exists nind. split; [reflexivity |]. apply nth_error_Some. congruence.
    + exists p. split; [reflexivity |]. apply nth_error_Some. congruence.
  - intros newNode i nearNode nl' changed Hnear Hstep Hch Hne.
    unfold rewire_step in Hstep.
    pose proof Hnear as Hget. apply getitem_ok in Hget.
    rewrite Hget in Hstep. cbn [bind] in Hstep.
    destruct (Rlt_dec _ _); [| inversion Hstep; subst; congruence].
    bind_inv Hstep. destruct v; inversion Hstep; subst; [| congruence].
    rewrite nth_error_setitem_eq in Hch by (apply nth_error_Some; congruence).
    inversion Hch; subst. reflexivity.
Qed.

Lemma parent_handles_in_range_witness :
  (0 < length (node_list line_state_2))%nat /\ 0%nat <> 2%nat.
Proof.
  assert (Hc : constructed line_planner) by (split; reflexivity).
  assert (He : 0 <= expand_dis line_planner) by (simpl; lra).
  destruct (parent_handles_in_range identity_rotation line_planner line_draws 2
              line_state_2 Hc He (line_run_2 identity_rotation identity_first_column)) as (Hall & _ & _).
  apply (Hall 2%nat line_node_2 0%nat); reflexivity.
Defined.

(** C3 fails on the code: at the end of this run the node at index 2 has
    the node at index 4 as parent. *)
Lemma rewire_makes_forward_reference :
  search_state identity_rotation detour_planner detour_draws
    = Ok (detour_state [Node_init 0 0; detour_a; detour_b'; detour_d; detour_n])
  /\ nth_error [Node_init 0 0; detour_a; detour_b'; detour_d; detour_n] 2
     = Some detour_b'
  /\ parent detour_b' = Some 4%nat
  /\ (2 < 4)%nat.
Proof.
  split; [exact detour_search |]. repeat split. lia.
Qed.

(** * Further properties of the code *)

(** ** Point collision test *)


(** ** Nearest node *)

Lemma list_min_le (l : list R) (m : R) :
  list_min l = Ok m -> forall v, In v l -> m <= v.
Proof.
  revert m. induction l as [| a t IH]; intros m H v Hin; [contradiction |].
  destruct t as [| b t'].
  - inversion H; subst. destruct Hin as [-> | []]. lra.
  - cbn [list_min] in H. bind_inv H. inversion H; subst.
    specialize (IH v0 Hv). destruct (Rlt_dec v0 a); destruct Hin as [-> | Hin];
      try lra; specialize (IH v Hin); lra.
Qed.

Lemma list_index_first (v : R) (l : list R) (i : nat) :
  list_index v l = Ok i ->
  forall j w, (j < i)%nat -> nth_error l j = Some w -> w <> v.
Proof.
  revert i. induction l as [| a t IH]; intros i H j w Hj Hw; simpl in H; [discriminate |].
  destruct (Req_dec_T a v) as [-> | Hne].
  - inversion H; subst. lia.
  - bind_inv H. inversion H; subst. destruct j as [| j]; simpl in Hw.
    + inversion Hw; subst. exact Hne.
    + eapply IH; eauto. lia.
Qed.

Lemma get_nearest_list_index_nonempty (nodes : list Node) (rnd : point) :
  nodes <> [] ->
  exists i nd,
    get_nearest_list_index nodes rnd = Ok i
    /\ nth_error nodes i = Some nd
    /\ (forall j nd', nth_error nodes j = Some nd' ->
          sq_dist_to rnd nd <= sq_dist_to rnd nd')
    /\ (forall j nd', (j < i)%nat -> nth_error nodes j = Some nd' ->
          sq_dist_to rnd nd < sq_dist_to rnd nd').
Proof.
  intros Hne.
  unfold get_nearest_list_index. fold (sq_dist_to rnd).
  set (dList := map (sq_dist_to rnd) nodes).
  assert (HdNe : dList <> []).
  { unfold dList. destruct nodes; [contradiction | discriminate]. }
  destruct (list_min_nonempty dList HdNe) as (m & Hm).
  destruct (list_index_found m dList (list_min_in _ _ Hm)) as (i & Hi).
  rewrite Hm. cbn [bind]. rewrite Hi.
  pose proof (list_index_spec _ _ _ Hi) as Hnth. unfold dList in Hnth.
  rewrite nth_error_map in Hnth.
  destruct (nth_error nodes i) as [nd |] eqn:Hnd; [| discriminate].
  inversion Hnth as [Hdm]. exists i, nd. split; [reflexivity |]. split; [exact Hnd |].
  assert (Hall : forall j nd', nth_error nodes j = Some nd' ->
                   sq_dist_to rnd nd <= sq_dist_to rnd nd').
  { intros j nd' Hj. rewrite Hdm. apply (list_min_le _ _ Hm).
    unfold dList. apply in_map. eapply nth_error_In; eauto. }
  split; [exact Hall |].
  intros j nd' Hlt Hj. specialize (Hall j nd' Hj).
  assert (Hneq : sq_dist_to rnd nd' <> m).
  { apply (list_index_first m dList i Hi j); [exact Hlt |].
    unfold dList. rewrite nth_error_map, Hj. reflexivity. }
  rewrite Hdm in *. lra.
Qed.

(** X2: on an empty list the nearest-node query raises; on a non-empty
    one it returns the index of a node whose squared distance to the
    sample is minimal, and every node before it is strictly farther. *)
Theorem get_nearest_list_index_spec (nodes : list Node) (rnd : point) :
  (nodes = [] -> get_nearest_list_index nodes rnd = Raise ValueError)
  /\ (nodes <> [] ->
      exists i nd,
        get_nearest_list_index nodes rnd = Ok i
        /\ nth_error nodes i = Some nd
        /\ (forall j nd', nth_error nodes j = Some nd' ->
              sq_dist_to rnd nd <= sq_dist_to rnd nd')
        /\ (forall j nd', (j < i)%nat -> nth_error nodes j = Some nd' ->
              sq_dist_to rnd nd < sq_dist_to rnd nd')).
Proof.
  split; [intros ->; reflexivity | apply get_nearest_list_index_nonempty].
Qed.

Lemma get_nearest_list_index_spec_witness :
  exists i nd,
    get_nearest_list_index symmetric_tree (0, 1) = Ok i
    /\ nth_error symmetric_tree i = Some nd.
Proof.
  destruct (get_nearest_list_index_spec symmetric_tree (0, 1)) as [_ H].
  destruct H as (i & nd & Hi & Hnd & _); [discriminate |].
  exists i, nd. split; assumption.
Defined.

(** ** Steering *)


(** ** Path length *)



Lemma pathsum_nonneg (l : list point) : 0 <= pathsum l.
Proof.
  induction l as [| a [| b t] IH]; cbn [pathsum]; try lra.
  pose proof (dist_nonneg b a). cbn [pathsum] in IH. lra.
Qed.





(** ** Parent selection *)

Lemma ext_le_refl (a : ext) : ext_le a a.
Proof. destruct a; simpl; [lra | exact I]. Qed.


Lemma ext_min_le (l : list ext) (m : ext) :
  ext_min l = Ok m -> forall v, In v l -> ext_le m v.
Proof.
  revert m. induction l as [| a t IH]; intros m H v Hin; [contradiction |].
  destruct t as [| b t'].
  - inversion H; subst. destruct Hin as [-> | []]. apply ext_le_refl.
  - cbn [ext_min] in H. bind_inv H. rename v0 into m'. inversion H; subst m.
    specialize (IH m' Hv).
    assert (Hcase : ext_le (if ext_ltb m' a then m' else a) a
                    /\ ext_le (if ext_ltb m' a then m' else a) m').
    { destruct m' as [u |], a as [w |]; cbn [ext_ltb ext_le];
        try destruct (Rlt_dec u w); cbn [ext_le]; try lra; try tauto. }
    destruct Hcase as [Ha Hm'].
    destruct Hin as [<- | Hin]; [exact Ha |].
    specialize (IH v Hin).
    destruct (if ext_ltb m' a then m' else a) as [u |], m' as [w |], v as [z |];
      cbn [ext_le] in *; try lra; try tauto.
Qed.


Lemma ext_eqb_refl (a : ext) : ext_eqb a a = true.
Proof.
  destruct a as [u |]; simpl; [| reflexivity].
  destruct (Req_dec_T u u); [reflexivity | contradiction].
Qed.


Lemma ext_index_first (v : ext) (l : list ext) (i : nat) :
  ext_index v l = Ok i ->
  forall j w, (j < i)%nat -> nth_error l j = Some w -> w <> v.
Proof.
  revert i. induction l as [| a t IH]; intros i H j w Hj Hw; simpl in H; [discriminate |].
  destruct (ext_eqb a v) eqn:Heq.
  - inversion H; subst. lia.
  - bind_inv H. inversion H; subst. destruct j as [| j]; simpl in Hw.
    + inversion Hw; subst. intros ->. rewrite ext_eqb_refl in Heq. discriminate.
    + eapply IH; eauto. lia.
Qed.

Lemma mapM_forward {A B : Type} (f : A -> result B) (l : list A) (bs : list B)
    (i : nat) (a : A) :
  mapM f l = Ok bs -> nth_error l i = Some a ->
  exists b, nth_error bs i = Some b /\ f a = Ok b.
Proof.
  revert bs i. induction l as [| a0 t IH]; intros bs i H Ha; simpl in H.
  - destruct i; discriminate.
  - bind_inv H. bind_inv H. inversion H; subst.
    destruct i as [| j]; simpl in *.
    + inversion Ha; subst. eauto.
    + eapply IH; eauto.
Qed.

Lemma mapM_total {A B : Type} (f : A -> result B) (l : list A) :
  (forall a, In a l -> exists b, f a = Ok b) -> exists bs, mapM f l = Ok bs.
Proof.
  induction l as [| a t IH]; intros H; [simpl; eauto |].
  destruct (H a (or_introl eq_refl)) as (b & Hb).
  destruct IH as (bs & Hbs); [intros a' Ha'; apply H; now right |].
  simpl. rewrite Hb. simpl. rewrite Hbs. simpl. eauto.
Qed.

Lemma mapM_length {A B : Type} (f : A -> result B) (l : list A) (bs : list B) :
  mapM f l = Ok bs -> length bs = length l.
Proof.
  revert bs. induction l as [| a t IH]; intros bs H; simpl in H.
  - inversion H. reflexivity.
  - bind_inv H. bind_inv H. inversion H; subst. simpl. f_equal. now apply IH.
Qed.

(** X7: parent selection never moves the node.  Either it returns the node
    as steered, and then every candidate's segment is blocked (or there is
    no candidate); or it hangs the node below a candidate with a free
    segment, at that candidate's cost plus the distance, and this cost is
    minimal among the candidates with a free segment, the first one in
    the candidate list winning ties. *)
Theorem choose_parent_minimal (self : InformedRRTStar) (nl : list Node)
    (newNode chosen : Node) (nearInds : list nat) :
  choose_parent self nl newNode nearInds = Ok chosen ->
  x chosen = x newNode /\ y chosen = y newNode
  /\ ((chosen = newNode
       /\ forall j, In j nearInds -> parent_cost self nl newNode j = Ok Inf)
      \/ exists k p pn,
           nth_error nearInds k = Some p
           /\ nth_error nl p = Some pn
           /\ parent_cost self nl newNode p = Ok (Fin (cost pn + line_cost newNode pn))
           /\ chosen = mkNode (x newNode) (y newNode)
                              (cost pn + line_cost newNode pn) (Some p)
           /\ (forall j cj, In j nearInds ->
                 parent_cost self nl newNode j = Ok (Fin cj) ->
                 cost chosen <= cj)
           /\ (forall k' j cj, (k' < k)%nat -> nth_error nearInds k' = Some j ->
                 parent_cost self nl newNode j = Ok (Fin cj) ->
                 cost chosen < cj)).
Proof.
  intros H. unfold choose_parent in H.
  destruct nearInds as [| i0 rest].
  { inversion H; subst. split; [reflexivity |]. split; [reflexivity |].
    left. split; [reflexivity |]. intros j []. }
  remember (i0 :: rest) as inds eqn:Hinds. clear Hinds.
  bind_inv H. rename v into dList, Hv into HdList.
  bind_inv H. rename v into minCost, Hv into Hmin.
  bind_inv H. rename v into k, Hv into Hk.
  bind_inv H. rename v into minInd, Hv into HminInd.
  apply getitem_ok in HminInd.
  pose proof (ext_min_le _ _ Hmin) as Hle.
  destruct minCost as [c |].
  - inversion H; subst chosen; clear H. split; [reflexivity |]. split; [reflexivity |].
    right. pose proof (ext_index_spec _ _ _ Hk) as Hkth.
    destruct (mapM_nth _ _ _ _ _ HdList Hkth) as (j & Hj & Hcost).
    assert (j = minInd) by congruence. subst j.
    pose proof Hcost as Hcost'.
    unfold parent_cost in Hcost'. bind_inv Hcost'. rename v into pn.
    apply getitem_ok in Hv. bind_inv Hcost'.
    destruct v; inversion Hcost' as [Hc]. subst c.
    exists k, minInd, pn. split; [exact HminInd |]. split; [exact Hv |].
    split; [exact Hcost |]. split; [reflexivity |]. cbn [cost]. split.
    + intros j cj Hin Hcj. apply In_nth_error in Hin as (kj & Hkj).
      destruct (mapM_forward _ _ _ _ _ HdList Hkj) as (b & Hb & Hfb).
      assert (b = Fin cj) by congruence. subst b.
      apply nth_error_In in Hb. specialize (Hle _ Hb). exact Hle.
    + intros k' j cj Hlt Hkj Hcj.
      destruct (mapM_forward _ _ _ _ _ HdList Hkj) as (b & Hb & Hfb).
      assert (b = Fin cj) by congruence. subst b.
      pose proof (ext_index_first _ _ _ Hk k' _ Hlt Hb) as Hne.
      apply nth_error_In in Hb. specialize (Hle _ Hb). cbn [ext_le] in Hle.
      destruct Hle as [Hlt' | Heq]; [exact Hlt' |].
      exfalso. apply Hne. now rewrite Heq.
  - inversion H; subst chosen; clear H. split; [reflexivity |]. split; [reflexivity |].
    left. split; [reflexivity |]. intros j Hin.
    apply In_nth_error in Hin as (kj & Hkj).
    destruct (mapM_forward _ _ _ _ _ HdList Hkj) as (b & Hb & Hfb).
    apply nth_error_In in Hb. specialize (Hle _ Hb).
    destruct b; [contradiction | exact Hfb].
Qed.

Lemma line_choose_parent :
  choose_parent line_planner [Node_init 0 0; line_node_1]
    (mkNode 2 0 2 (Some 1%nat)) [0%nat; 1%nat] = Ok line_node_2.
Proof.
  unfold choose_parent, parent_cost, line_node_1. fields.
  cbn [mapM getitem nth_error bind]. rewrite !line_free. fields.
  replace (sqrt (sqr (2 - 0) + sqr (0 - 0))) with 2
    by (symmetry; apply sqrt_value; unfold sqr; lra).
  replace (sqrt (sqr (2 - 1) + sqr (0 - 0))) with 1
    by (symmetry; apply sqrt_value; unfold sqr; lra).
  cbn [ext_min bind ext_ltb]. rdec. cbn [ext_index ext_eqb bind]. rdec.
  cbn [bind getitem nth_error]. unfold line_node_2. req.
Qed.

Lemma choose_parent_minimal_witness :
  x line_node_2 = x (mkNode 2 0 2 (Some 1%nat))
  /\ y line_node_2 = y (mkNode 2 0 2 (Some 1%nat)).
Proof.
  destruct (choose_parent_minimal _ _ _ _ _ line_choose_parent) as (Hx & Hy & _).
  split; [exact Hx | exact Hy].
Defined.

(** ** The near set *)

Lemma filter_map_length {A B : Type} (f : A -> B) (p : B -> bool) (l : list A) :
  length (filter p (map f l)) = length (filter (fun a => p (f a)) l).
Proof.
  induction l as [| a t IH]; [reflexivity |]. simpl.
  destruct (p (f a)); simpl; now rewrite IH.
Qed.

Lemma list_index_le (v : R) (l : list R) (i j : nat) :
  list_index v l = Ok i -> nth_error l j = Some v -> (i <= j)%nat.
Proof.
  intros Hi Hj. destruct (Nat.le_gt_cases i j) as [Hle | Hgt]; [exact Hle |].
  exfalso. exact (list_index_first v l i Hi j v Hgt Hj eq_refl).
Qed.

Lemma near_dlist_nth (nl : list Node) (newNode : Node) (i : nat) :
  nth_error (near_dlist nl newNode) i
  = option_map (sq_dist_to (x newNode, y newNode)) (nth_error nl i).
Proof. unfold near_dlist. now rewrite nth_error_map. Qed.

Lemma within_radius_line_cost (newNode nd : Node) (r : R) :
  0 <= r ->
  (within_radius newNode r nd = true <-> line_cost nd newNode <= r).
Proof.
  intros Hr. unfold within_radius, sq_dist_to, line_cost. cbn [fst snd].
  set (d2 := sqr (x nd - x newNode) + sqr (y nd - y newNode)).
  assert (Hd2 : 0 <= d2) by apply sqrt_sqr_sum_nonneg.
  destruct (Rle_dec d2 (r * r)) as [Hle | Hgt].
  - split; [intros _; now apply sqrt_upper | reflexivity].
  - split; [discriminate |]. intros Hs. exfalso. apply Hgt.
    rewrite <- (sqrt_sqrt d2 Hd2). pose proof (sqrt_pos d2). nra.
Qed.

(** What [find_near_nodes] returns on a non-empty tree. *)
Lemma find_near_nodes_nonempty (nl : list Node) (newNode : Node) :
  nl <> [] ->
  exists r inds,
    near_radius (length nl) = Ok r /\ 0 <= r <= 50
    /\ find_near_nodes nl newNode = Ok inds
    /\ (forall i, In i inds ->
          exists nd, nth_error nl i = Some nd /\ line_cost nd newNode <= r)
    /\ length inds = length (filter (within_radius newNode r) nl)
    /\ (forall j nd, nth_error nl j = Some nd -> line_cost nd newNode <= r ->
          exists i nd', In i inds /\ (i <= j)%nat
                        /\ nth_error nl i = Some nd'
                        /\ line_cost nd' newNode = line_cost nd newNode).
Proof.
  intros Hne.
  assert (Hlen : (1 <= length nl)%nat) by (destruct nl; [contradiction | simpl; lia]).
  destruct (near_radius_ok _ Hlen) as (r & Hr & Hr0 & _).
  pose proof (near_radius_le_50 _ _ Hr) as Hr50.
  set (dlist := near_dlist nl newNode).
  set (keep := fun i : R => if Rle_dec i (r * r) then true else false).
  destruct (mapM_total (fun i => list_index i dlist) (filter keep dlist)) as (inds & Hinds).
  { intros d Hd. apply filter_In in Hd as [Hd _]. now apply list_index_found. }
  assert (Hfind : find_near_nodes nl newNode = Ok inds).
  { unfold find_near_nodes. rewrite Hr. cbn [bind]. exact Hinds. }
  exists r, inds. split; [exact Hr |]. split; [exact Hr50 |]. split; [exact Hfind |].
  split; [| split].
  - destruct (find_near_nodes_within _ _ _ Hfind) as (r' & Hr' & Hall).
    assert (r' = r) by congruence. subst r'. exact Hall.
  - rewrite (mapM_length _ _ _ Hinds). unfold dlist, near_dlist.
    rewrite filter_map_length. reflexivity.
  - intros j nd Hj Hle.
    assert (Hdj : nth_error dlist j = Some (sq_dist_to (x newNode, y newNode) nd)).
    { unfold dlist. rewrite near_dlist_nth, Hj. reflexivity. }
    assert (Hkeep : In (sq_dist_to (x newNode, y newNode) nd) (filter keep dlist)).
    { apply filter_In. split; [eapply nth_error_In; eauto |].
      apply (within_radius_line_cost newNode nd r Hr0) in Hle.
      unfold within_radius in Hle. exact Hle. }
    apply In_nth_error in Hkeep as (k & Hk).
    destruct (mapM_forward _ _ _ _ _ Hinds Hk) as (i & Hi & Hidx).
    pose proof (list_index_spec _ _ _ Hidx) as Hdi.
    unfold dlist in Hdi. rewrite near_dlist_nth in Hdi.
    destruct (nth_error nl i) as [nd' |] eqn:Hnd'; [| discriminate].
    inversion Hdi as [Heq].
    exists i, nd'. split; [eapply nth_error_In; eauto |].
    split; [eapply list_index_le; eauto |]. split; [exact Hnd' |].
    unfold line_cost. unfold sq_dist_to in Heq. cbn [fst snd] in Heq. now rewrite Heq.
Qed.

(** X8: the near set of an empty tree raises (logarithm of zero); on a
    non-empty tree it succeeds, lists only indices of nodes within the
    radius, has one entry per node within the radius, and for every node
    within the radius lists the first index of a node at the same
    distance (never a later one). *)
Theorem find_near_nodes_spec (nl : list Node) (newNode : Node) :
  (nl = [] -> find_near_nodes nl newNode = Raise ValueError)
  /\ (nl <> [] ->
      exists r inds,
        near_radius (length nl) = Ok r /\ 0 <= r <= 50
        /\ find_near_nodes nl newNode = Ok inds
        /\ (forall i, In i inds ->
              exists nd, nth_error nl i = Some nd /\ line_cost nd newNode <= r)
        /\ length inds = length (filter (within_radius newNode r) nl)
        /\ (forall j nd, nth_error nl j = Some nd -> line_cost nd newNode <= r ->
              exists i nd', In i inds /\ (i <= j)%nat
                            /\ nth_error nl i = Some nd'
                            /\ line_cost nd' newNode = line_cost nd newNode)).
Proof.
  split; [| apply find_near_nodes_nonempty].
  intros ->. unfold find_near_nodes, near_radius, pylog. cbn [length INR].
  destruct (Rlt_dec 0 0); [lra | reflexivity].
Qed.

Lemma find_near_nodes_spec_witness :
  exists r inds,
    near_radius 3 = Ok r /\ find_near_nodes symmetric_tree node_above_root = Ok inds
    /\ length inds = length (filter (within_radius node_above_root r) symmetric_tree).
Proof.
  destruct (find_near_nodes_spec symmetric_tree node_above_root) as [_ H].
  destruct H as (r & inds & Hr & _ & Hinds & _ & Hlen & _); [discriminate |].
  exists r, inds. repeat split; assumption.
Defined.

(** X9: when the nodes of the tree lie at pairwise different distances
    from the new node, the near set holds the index of every node within
    the radius. *)
Theorem find_near_nodes_complete (nl : list Node) (newNode : Node) (inds : list nat)
    (r : R) :
  NoDup (near_dlist nl newNode) ->
  near_radius (length nl) = Ok r ->
  find_near_nodes nl newNode = Ok inds ->
  forall j nd, nth_error nl j = Some nd ->
    (In j inds <-> line_cost nd newNode <= r).
Proof.
  intros Hnodup Hr Hfind j nd Hj.
  assert (Hne : nl <> []) by (intros ->; destruct j; discriminate).
  destruct (find_near_nodes_nonempty nl newNode Hne)
    as (r' & inds' & Hr' & _ & Hfind' & Hsound & _ & Hcompl).
  assert (r' = r) by congruence. assert (inds' = inds) by congruence. subst r' inds'.
  split.
  - intros Hin. destruct (Hsound j Hin) as (nd' & Hnd' & Hle).
    assert (nd' = nd) by congruence. now subst.
  - intros Hle. destruct (Hcompl j nd Hj Hle) as (i & nd' & Hin & _ & Hi & Heq).
    assert (Hsq : sq_dist_to (x newNode, y newNode) nd'
                  = sq_dist_to (x newNode, y newNode) nd).
    { unfold line_cost in Heq. unfold sq_dist_to. cbn [fst snd].
      apply sqrt_inj; [apply sqrt_sqr_sum_nonneg | apply sqrt_sqr_sum_nonneg | exact Heq]. }
    assert (i = j).
    { apply (proj1 (NoDup_nth_error (near_dlist nl newNode)) Hnodup).
      - rewrite <- nth_error_Some, near_dlist_nth, Hi. discriminate.
      - rewrite !near_dlist_nth, Hi, Hj. cbn [option_map]. now rewrite Hsq. }
    now subst.
Qed.

Lemma line_find_near :
  find_near_nodes [Node_init 0 0; line_node_1] (mkNode 2 0 2 (Some 1%nat))
  = Ok [0%nat; 1%nat].
Proof.
  unfold find_near_nodes. cbn [length].
  destruct (near_radius_ok 2) as (r & Hr & Hr0 & Hrr); [lia |].
  rewrite Hr. cbn [bind]. cbn [INR] in Hrr.
  replace (1 + 1) with 2 in Hrr by lra. pose proof ln_2_lower as Hln.
  unfold near_dlist, line_node_1. fields. unfold sqr.
  rdec. cbn [mapM list_index bind]. rdec. reflexivity.
Qed.

Lemma find_near_nodes_complete_witness :
  exists r, near_radius 2 = Ok r
    /\ (In 1%nat [0%nat; 1%nat]
        <-> line_cost line_node_1 (mkNode 2 0 2 (Some 1%nat)) <= r).
Proof.
  destruct (near_radius_ok 2) as (r & Hr & _); [lia |].
  exists r. split; [exact Hr |].
  apply (find_near_nodes_complete [Node_init 0 0; line_node_1]
           (mkNode 2 0 2 (Some 1%nat)) [0%nat; 1%nat] r).
  - unfold near_dlist, line_node_1. fields. unfold sqr.
    constructor; [intros [H | []]; lra |]. constructor; [intros [] | constructor].
  - exact Hr.
  - exact line_find_near.
  - reflexivity.
Defined.

(** ** Rewiring *)

(** How a node list relates to the one [rewire] started from. *)
Lemma rewire_relates (self : InformedRRTStar) (nl nl' : list Node)
    (newNode : Node) (nearInds : list nat) :
  rewire self nl newNode nearInds = Ok nl' ->
  length nl' = length nl
  /\ forall i nd, nth_error nl i = Some nd ->
       exists nd', nth_error nl' i = Some nd'
         /\ x nd' = x nd /\ y nd' = y nd /\ cost nd' <= cost nd
         /\ (nd' = nd
             \/ (In i nearInds
                 /\ parent nd' = Some (length nl - 1)%nat
                 /\ cost nd' = cost newNode + line_cost nd newNode
                 /\ cost nd' < cost nd)).
Proof.
  intros H. unfold rewire in H.
  apply (foldM_invariant_in
           (fun l => length l = length nl
                     /\ forall i nd, nth_error nl i = Some nd ->
                          exists nd', nth_error l i = Some nd'
                            /\ x nd' = x nd /\ y nd' = y nd /\ cost nd' <= cost nd
                            /\ (nd' = nd
                                \/ (In i nearInds
                                    /\ parent nd' = Some (length nl - 1)%nat
                                    /\ cost nd' = cost newNode + line_cost nd newNode
                                    /\ cost nd' < cost nd)))
           _ nearInds) in H; [exact H | |].
  - intros l a l' Hin [Hlen Hrel] Hstep. unfold rewire_step in Hstep.
    bind_inv Hstep. rename v into nearNode. apply getitem_ok in Hv.
    fold (line_cost nearNode newNode) in Hstep.
    destruct (Rlt_dec _ (cost nearNode)) as [Hlt | Hge];
      [| inversion Hstep; subst l'; now split].
    bind_inv Hstep. destruct v; [| inversion Hstep; subst l'; now split].
    inversion Hstep; subst l'; clear Hstep.
    split; [now rewrite length_setitem |].
    intros i nd Hi. destruct (Hrel i nd Hi) as (nd' & Hnd' & Hx & Hy & Hc & Hcase).
    destruct (Nat.eq_dec a i) as [-> | Hne].
    + assert (nd' = nearNode) by congruence. subst nd'.
      eexists. split; [apply nth_error_setitem_eq; apply nth_error_Some; congruence |].
      cbn [x y cost parent].
      assert (Hd : line_cost nearNode newNode = line_cost nd newNode).
      { apply line_cost_position; auto. }
      rewrite Hd in *. split; [exact Hx |]. split; [exact Hy |]. split; [lra |].
      right. split; [exact Hin |]. split; [reflexivity |]. split; [reflexivity | lra].
    + exists nd'. split; [now rewrite nth_error_setitem_neq by exact Hne |].
      repeat split; assumption.
  - split; [reflexivity |]. intros i nd Hi. exists nd.
    repeat split; try reflexivity; try assumption; try lra. now left.
Qed.

(** X10: rewiring keeps the number of nodes and every position, never
    raises a cost, and changes only nodes listed as near: a changed node
    gets the index of the last node as parent and the new node's cost plus
    the distance to it as cost, strictly below what it had. *)
Theorem rewire_spec (self : InformedRRTStar) (nl nl' : list Node)
    (newNode : Node) (nearInds : list nat) :
  rewire self nl newNode nearInds = Ok nl' ->
  length nl' = length nl
  /\ forall i nd, nth_error nl i = Some nd ->
       exists nd', nth_error nl' i = Some nd'
         /\ x nd' = x nd /\ y nd' = y nd /\ cost nd' <= cost nd
         /\ (nd' = nd
             \/ (In i nearInds
                 /\ parent nd' = Some (length nl - 1)%nat
                 /\ cost nd' = cost newNode + line_cost nd newNode
                 /\ cost nd' < cost nd)).
Proof. apply rewire_relates. Qed.

(** ** The tree along a run *)

(** [bind_inv] with the names given. *)
Ltac bind_as H a Ha := apply bind_ok in H; destruct H as (a & Ha & H).

Lemma extends_tree_refl (nl : list Node) : extends_tree nl nl.
Proof.
  split; [lia |]. intros i nd Hi. exists nd. repeat split; try assumption; lra.
Qed.

Lemma extends_tree_trans (a b c : list Node) :
  extends_tree a b -> extends_tree b c -> extends_tree a c.
Proof.
  intros [Hab Hnab] [Hbc Hnbc]. split; [lia |].
  intros i nd Hi. destruct (Hnab i nd Hi) as (nd1 & H1 & Hx1 & Hy1 & Hc1).
  destruct (Hnbc i nd1 H1) as (nd2 & H2 & Hx2 & Hy2 & Hc2).
  exists nd2. repeat split; try assumption; try congruence; lra.
Qed.

(** What one pass of the loop does to the node list: nothing, or one node
    more at the end, the others rewired at most. *)
Lemma iteration_node_list (self : InformedRRTStar) (su : Setup) (st st' : State)
    (dr : Draws) :
  iteration self su st dr = Ok st' ->
  node_list st' = node_list st
  \/ (length (node_list st') = S (length (node_list st))
      /\ extends_tree (node_list st) (node_list st')
      /\ exists nd, nth_error (node_list st') (length (node_list st)) = Some nd
           /\ collision_check nd (obstacle_list self) = true).
Proof.
  intros H. unfold iteration in H.
  bind_as H rnd Hrnd. bind_as H nind Hnind. bind_as H nearestNode Hnearest.
  bind_as H isCollisionEx Hext.
  destruct (collision_check _ _) eqn:Hfree; cbn [andb] in H;
    [| inversion H; subst; now left].
  destruct isCollisionEx; [| inversion H; subst; now left].
  bind_as H nearInds Hinds. bind_as H chosen Hchosen. bind_as H nl' Hrewire.
  apply check_goal_node_list in H. cbn [node_list] in H. rewrite H. clear H.
  right. apply rewire_relates in Hrewire as [Hlen Hrel].
  rewrite length_app in Hlen. cbn [length] in Hlen.
  split; [lia |]. split.
  - split; [lia |]. intros i nd Hi.
    destruct (Hrel i nd (nth_error_snoc_old _ chosen _ _ Hi))
      as (nd' & Hnd' & Hx & Hy & Hc & _).
    exists nd'. repeat split; assumption.
  - destruct (Hrel (length (node_list st)) chosen) as (nd' & Hnd' & Hx & Hy & _).
    { rewrite nth_error_app2 by lia. now rewrite Nat.sub_diag. }
    exists nd'. split; [exact Hnd' |].
    rewrite <- Hfree. apply collision_check_position.
    + rewrite Hx. apply choose_parent_spec in Hchosen as [-> | (p & pn & _ & _ & ->)];
        reflexivity.
    + rewrite Hy. apply choose_parent_spec in Hchosen as [-> | (p & pn & _ & _ & ->)];
        reflexivity.
Qed.

Lemma foldM_app {A S : Type} (f : S -> A -> result S) (l1 l2 : list A) (s : S) :
  foldM f (l1 ++ l2) s = (s' <- foldM f l1 s ;; foldM f l2 s').
Proof.
  revert s. induction l1 as [| a t IH]; intros s; [reflexivity |].
  cbn [app foldM]. destruct (f s a); cbn [bind]; [apply IH | reflexivity].
Qed.

(** A longer run continues a shorter one. *)
Lemma run_split (svd : vec3 -> mat3) (self : InformedRRTStar)
    (draws : nat -> Draws) (m k : nat) (st : State) :
  run svd self draws (m + k) = Ok st ->
  exists su stm,
    setup svd self = Ok su
    /\ run svd self draws m = Ok stm
    /\ foldM (iteration self su) (map draws (seq m k)) stm = Ok st.
Proof.
  intros H. unfold run in *. bind_inv H. rename v into su.
  rewrite seq_app, map_app, foldM_app in H. bind_inv H. rename v into stm.
  exists su, stm. rewrite Hv. cbn [bind]. repeat split; assumption.
Qed.

Lemma fold_iterations_tree (self : InformedRRTStar) (su : Setup) (l : list Draws) :
  forall s s', foldM (iteration self su) l s = Ok s' ->
    extends_tree (node_list s) (node_list s')
    /\ (length (node_list s') <= length (node_list s) + length l)%nat.
Proof.
  induction l as [| dr t IH]; intros s s' H; cbn [foldM] in H.
  - inversion H; subst. split; [apply extends_tree_refl | lia].
  - bind_as H s1 H1. destruct (IH _ _ H) as [Hext Hlen]. cbn [length].
    apply iteration_node_list in H1 as [Heq | (Hl & Hext1 & _)].
    + rewrite Heq in *. split; [exact Hext | lia].
    + split; [eapply extends_tree_trans; eauto | lia].
Qed.

Lemma run_zero (svd : vec3 -> mat3) (self : InformedRRTStar)
    (draws : nat -> Draws) (n : nat) (st : State) :
  run svd self draws n = Ok st -> run svd self draws 0 = Ok (initial_state self).
Proof.
  intros H. unfold run in *. bind_as H su Hsu. rewrite Hsu. reflexivity.
Qed.

(** X11: the tree only grows, by at most one node per iteration, and a
    node once inserted keeps its index and its position while its cost
    can only go down: between any two points of a run the later node list
    extends the earlier one, and after [m] iterations it has between 1 and
    [m + 1] nodes. *)
Theorem run_tree_append_only (svd : vec3 -> mat3) (self : InformedRRTStar)
    (draws : nat -> Draws) (m k : nat) (stm st : State) :
  run svd self draws m = Ok stm ->
  run svd self draws (m + k) = Ok st ->
  extends_tree (node_list stm) (node_list st)
  /\ (length (node_list st) <= length (node_list stm) + k)%nat
  /\ (1 <= length (node_list stm) <= m + 1)%nat.
Proof.
  intros Hm H.
  apply run_split in H as (su & stm' & Hsu & Hm' & Hfold).
  assert (stm' = stm) by congruence. subst stm'.
  destruct (fold_iterations_tree _ _ _ _ _ Hfold) as [Hext Hlen].
  rewrite length_map, length_seq in Hlen.
  split; [exact Hext |]. split; [exact Hlen |].
  pose proof (run_zero _ _ _ _ _ Hm) as H0.
  change m with (0 + m)%nat in Hm.
  apply run_split in Hm as (su' & st0 & _ & H0' & Hfold0).
  assert (st0 = initial_state self) by congruence. subst st0.
  destruct (fold_iterations_tree _ _ _ _ _ Hfold0) as [[Hge _] Hle].
  rewrite length_map, length_seq in Hle. cbn [initial_state node_list length] in *. lia.
Qed.

Lemma run_tree_append_only_witness :
  extends_tree (node_list line_state_1) (node_list line_state_2).
Proof.
  apply (run_tree_append_only identity_rotation line_planner line_draws 1 1
           line_state_1 line_state_2).
  - exact (line_run_1 identity_rotation).
  - exact (line_run_2 identity_rotation identity_first_column).
Defined.

Lemma nodes_clear_iteration (self : InformedRRTStar) (su : Setup) (st st' : State)
    (dr : Draws) :
  (1 <= length (node_list st))%nat ->
  nodes_clear self (node_list st) ->
  iteration self su st dr = Ok st' ->
  nodes_clear self (node_list st').
Proof.
  intros Hlen Hclear H.
  apply iteration_node_list in H as [-> | (Hl & [_ Hext] & nd & Hnd & Hfree)];
    [exact Hclear |].
  intros i nd' Hi Hnd'.
  destruct (Nat.lt_ge_cases i (length (node_list st))) as [Hlt | Hge].
  - destruct (nth_error (node_list st) i) as [old |] eqn:Hold;
      [| apply nth_error_None in Hold; lia].
    destruct (Hext i old Hold) as (nd2 & Hnd2 & Hx & Hy & _).
    assert (nd2 = nd') by congruence. subst nd2.
    rewrite <- (Hclear i old Hi Hold). now apply collision_check_position.
  - assert (i = length (node_list st)).
    { assert (i < length (node_list st'))%nat by (apply nth_error_Some; congruence). lia. }
    subst i. assert (nd' = nd) by congruence. now subst.
Qed.

(** X12: at every point of a run, every node of the tree except the
    start node at index 0 passes the point collision test against the
    obstacle list. *)
Theorem run_nodes_collision_free (svd : vec3 -> mat3) (self : InformedRRTStar)
    (draws : nat -> Draws) (n : nat) (st : State) :
  run svd self draws n = Ok st ->
  forall i nd, (1 <= i)%nat -> nth_error (node_list st) i = Some nd ->
    collision_check nd (obstacle_list self) = true.
Proof.
  intros H.
  apply (run_invariant
           (fun s => (1 <= length (node_list s))%nat /\ nodes_clear self (node_list s))
           svd self draws n st); [| | exact H].
  - split; [simpl; lia |]. intros i nd Hi Hnd.
    destruct i as [| [| i]]; [lia | discriminate | discriminate].
  - intros su s dr s' _ [Hlen Hclear] Hit. split.
    + apply iteration_node_list in Hit as [-> | [Hl _]]; lia.
    + eapply nodes_clear_iteration; eauto.
Qed.

Lemma run_nodes_collision_free_witness :
  collision_check line_node_2 (obstacle_list line_planner) = true.
Proof.
  apply (run_nodes_collision_free identity_rotation line_planner line_draws 2
           line_state_2 (line_run_2 identity_rotation identity_first_column)
           2%nat line_node_2); [lia | reflexivity].
Defined.

(** ** Costs against lengths *)





(** ** Bookkeeping of the best path *)

Lemma best_recorded_iteration (self : InformedRRTStar) (su : Setup) (st st' : State)
    (dr : Draws) :
  best_recorded st -> iteration self su st dr = Ok st' -> best_recorded st'.
Proof.
  intros [Hinf Hbest] H.
  apply iteration_best in H as [Hpl [(Hc & Hp & Hr) | Hnew]].
  - split; [congruence |]. rewrite Hp, Hc, Hr. exact Hbest.
  - destruct Hnew as (course & _ & Hc & Hp & Hr & _).
    split; [congruence |]. rewrite Hp, Hc, Hr. split; [reflexivity |].
    split; [| apply last_last]. intros Hnil. now apply app_eq_nil in Hnil as [_ Hnil].
Qed.

(** X14: at every point of a run [pathLen] is still infinite; no path is
    stored exactly as long as the best cost is infinite and nothing was
    recorded; and a stored path has the best cost as its length, which is
    the value recorded last. *)
Theorem run_best_bookkeeping (svd : vec3 -> mat3) (self : InformedRRTStar)
    (draws : nat -> Draws) (n : nat) (st : State) :
  run svd self draws n = Ok st ->
  pathLen st = Inf
  /\ (path st = None <-> cBest st = Inf)
  /\ (path st = None <-> recorded st = [])
  /\ forall course, path st = Some course ->
       cBest st = Fin (get_path_len course)
       /\ last (recorded st) 0 = get_path_len course.
Proof.
  intros H.
  assert (Hinv : best_recorded st).
  { apply (run_invariant best_recorded svd self draws n st); [| | exact H].
    - split; [reflexivity |]. cbn. split; reflexivity.
    - intros su s dr s' _ Hs Hit. eapply best_recorded_iteration; eauto. }
  destruct Hinv as [Hinf Hbest]. split; [exact Hinf |].
  destruct (path st) as [course |].
  - destruct Hbest as (Hc & Hne & Hlast). split; [| split].
    + split; [discriminate | intros Hc'; congruence].
    + split; [discriminate | intros Hr; contradiction].
    + intros c Heq. inversion Heq; subst. split; assumption.
  - destruct Hbest as [Hc Hr]. split; [| split].
    + split; intros _; [exact Hc | reflexivity].
    + split; intros _; [exact Hr | reflexivity].
    + intros c Heq. discriminate.
Qed.

Lemma run_best_bookkeeping_witness :
  pathLen line_state_2 = Inf
  /\ last (recorded line_state_2) 0 = get_path_len [(3 / 2, 0); (2, 0); (0, 0)].
Proof.
  destruct (run_best_bookkeeping identity_rotation line_planner line_draws 2
              line_state_2 (line_run_2 identity_rotation identity_first_column))
    as (Hinf & _ & _ & Hsome).
  destruct (Hsome _ eq_refl) as [_ Hlast]. split; assumption.
Defined.

(** ** Runs do not raise *)












(** ** Samplers *)

(** X16: the unit-ball sampler raises a division by zero when the larger
    of its two draws is 0; otherwise it returns a planar point whose
    distance from the origin is that larger draw, so a point of the closed
    unit disk when both draws lie between 0 and 1. *)
Theorem sample_unit_ball_spec (dr : Draws) :
  (Rmax (ball_a dr) (ball_b dr) = 0 ->
   sample_unit_ball dr = Raise ZeroDivisionError)
  /\ (Rmax (ball_a dr) (ball_b dr) <> 0 ->
      exists u v,
        sample_unit_ball dr = Ok (u, v, 0)
        /\ u * u + v * v = Rmax (ball_a dr) (ball_b dr) * Rmax (ball_a dr) (ball_b dr)
        /\ (0 <= ball_a dr <= 1 -> 0 <= ball_b dr <= 1 -> u * u + v * v <= 1)).
Proof.
  unfold sample_unit_ball, Rmax.
  destruct (Rle_dec (ball_a dr) (ball_b dr)) as [Hle | Hgt];
    destruct (Rlt_dec (ball_b dr) (ball_a dr)) as [Hlt | Hge]; try lra.
  - split.
    + intros ->. now rewrite pydiv_zero.
    + intros Hne. rewrite pydiv_ok by exact Hne. cbn [bind].
      set (q := 2 * PI * ball_a dr / ball_b dr).
      pose proof (sin2_cos2 q) as Hsc. unfold Rsqr in Hsc.
      exists (ball_b dr * cos q), (ball_b dr * sin q). split; [reflexivity |].
      split; [nra |]. intros Ha Hb. nra.
  - split.
    + intros ->. now rewrite pydiv_zero.
    + intros Hne. rewrite pydiv_ok by exact Hne. cbn [bind].
      set (q := 2 * PI * ball_b dr / ball_a dr).
      pose proof (sin2_cos2 q) as Hsc. unfold Rsqr in Hsc.
      exists (ball_a dr * cos q), (ball_a dr * sin q). split; [reflexivity |].
      split; [nra |]. intros Ha Hb. nra.
Qed.

Lemma sample_unit_ball_spec_witness :
  exists u v,
    sample_unit_ball (mkDraws 0 0 0 0 (1 / 2)) = Ok (u, v, 0)
    /\ u * u + v * v <= 1.
Proof.
  destruct (sample_unit_ball_spec (mkDraws 0 0 0 0 (1 / 2))) as [_ H].
  destruct H as (u & v & Heq & _ & Hle).
  - cbn [ball_a ball_b]. unfold Rmax. destruct (Rle_dec 0 (1 / 2)); lra.
  - exists u, v. split; [exact Heq |]. apply Hle; cbn [ball_a ball_b]; lra.
Defined.

(** X17: the uninformed sampler returns the goal position exactly when
    the integer draw does not exceed the goal sample rate; otherwise, with
    ordered bounds and uniform draws between 0 and 1, it returns a point
    of the sampling square. *)
Theorem sample_free_space_spec (self : InformedRRTStar) (dr : Draws) :
  ((randint_0_100 dr <= goal_sample_rate self)%Z ->
   sample_free_space self dr = (x (goal self), y (goal self)))
  /\ ((goal_sample_rate self < randint_0_100 dr)%Z ->
      min_rand self <= max_rand self ->
      0 <= uniform_1 dr <= 1 -> 0 <= uniform_2 dr <= 1 ->
      min_rand self <= fst (sample_free_space self dr) <= max_rand self
      /\ min_rand self <= snd (sample_free_space self dr) <= max_rand self).
Proof.
  unfold sample_free_space, draws_uniform, uniform. split.
  - intros Hle. apply Z.ltb_ge in Hle. now rewrite Hle.
  - intros Hlt Hb H1 H2. apply Z.ltb_lt in Hlt. rewrite Hlt. cbn [fst snd]. nra.
Qed.

Lemma sample_free_space_spec_witness :
  -2 <= fst (sample_free_space main_planner (mkDraws 50 (1 / 2) (1 / 4) 0 0)) <= 15.
Proof.
  destruct (sample_free_space_spec main_planner (mkDraws 50 (1 / 2) (1 / 4) 0 0))
    as [_ H].
  apply H; cbn; try lia; lra.
Defined.

(** ** The segment test with a step length that is not positive *)

Lemma Int_part_nonneg (r : R) : 0 <= r -> (0 <= Int_part r)%Z.
Proof.
  intros Hr. destruct (base_Int_part r) as [_ Hgt].
  assert (H : -1 < IZR (Int_part r)) by lra.
  apply lt_IZR in H. lia.
Qed.

(** X18: with a zero step length the segment test raises a division by
    zero whatever its arguments; with a negative step length and a length
    [d >= 0] it tests no point at all and answers collision-free. *)
Theorem check_collision_extend_degenerate (self : InformedRRTStar) (nd : Node)
    (theta d : R) :
  (expand_dis self = 0 ->
   check_collision_extend self nd theta d = Raise ZeroDivisionError)
  /\ (expand_dis self < 0 -> 0 <= d ->
      check_collision_extend self nd theta d = Ok true
      /\ check_collision_extend_tests self nd theta d = Ok []).
Proof.
  split.
  - intros He. unfold check_collision_extend. now rewrite He, pydiv_zero.
  - intros He Hd.
    assert (Hq : d / expand_dis self <= 0).
    { unfold Rdiv. assert (/ expand_dis self < 0) by (apply Rinv_lt_0_compat; lra). nra. }
    assert (Hn : range_len (py_int (d / expand_dis self)) = 0%nat).
    { unfold range_len, py_int. destruct (Rle_dec 0 (d / expand_dis self)) as [H0 | H0].
      - replace (d / expand_dis self) with 0 by lra.
        rewrite (Int_part_small 0) by lra. reflexivity.
      - pose proof (Int_part_nonneg (- (d / expand_dis self))) as Hi.
        assert (0 <= Int_part (- (d / expand_dis self)))%Z by (apply Hi; lra).
        lia. }
    unfold check_collision_extend, check_collision_extend_tests.
    rewrite pydiv_ok by lra. cbn [bind]. rewrite Hn. split; reflexivity.
Qed.

(** ** Informed samples lie in the ellipse *)

(** The sum of the distances to the two foci, for a point of the ellipse
    with semi-axes [A] and [B] written in the frame of its axes. *)
Lemma ellipse_focal_sum (A B f s0 t : R) :
  0 <= f <= A -> B * B = A * A - f * f -> 0 <= t -> s0 * s0 + t <= 1 ->
  sqrt ((A * s0 + f) * (A * s0 + f) + B * B * t)
  + sqrt ((A * s0 - f) * (A * s0 - f) + B * B * t) <= 2 * A.
Proof.
  intros Hf HB Ht Hdisk.
  set (BB := B * B) in *.
  assert (HBB : 0 <= BB) by (unfold BB; nra).
  set (D1 := (A * s0 + f) * (A * s0 + f) + BB * t).
  set (D2 := (A * s0 - f) * (A * s0 - f) + BB * t).
  set (K := 2 * A * A - (A * s0 * (A * s0) + BB * t + f * f)).
  assert (HBt : 0 <= BB * t) by (apply Rmult_le_pos; assumption).
  assert (HD1 : 0 <= D1).
  { unfold D1. pose proof (Rle_0_sqr (A * s0 + f)) as Hq. unfold Rsqr in Hq. lra. }
  assert (HD2 : 0 <= D2).
  { unfold D2. pose proof (Rle_0_sqr (A * s0 - f)) as Hq. unfold Rsqr in Hq. lra. }
  assert (Hs00 : 0 <= s0 * s0) by (pose proof (Rle_0_sqr s0) as Hq; unfold Rsqr in Hq; lra).
  assert (Hs0 : 0 <= 1 - s0 * s0) by lra.
  assert (Ht1 : 0 <= 1 - t) by lra.
  assert (HAA : 0 <= A * A) by (pose proof (Rle_0_sqr A) as Hq; unfold Rsqr in Hq; lra).
  assert (HK : 0 <= K).
  { replace K with (A * A * (1 - s0 * s0) + BB * (1 - t))
      by (unfold K; replace (f * f) with (A * A - BB) by lra; ring).
    pose proof (Rmult_le_pos _ _ HAA Hs0). pose proof (Rmult_le_pos _ _ HBB Ht1). lra. }
  assert (Hprod : D1 * D2 <= K * K).
  { assert (Hid : K * K - D1 * D2 = 4 * (A * A) * (BB * (1 - s0 * s0 - t))).
    { unfold K, D1, D2. clearbody BB. subst BB. ring. }
    assert (0 <= 4 * (A * A) * (BB * (1 - s0 * s0 - t))); [| lra].
    apply Rmult_le_pos; [lra |]. apply Rmult_le_pos; [exact HBB | lra]. }
  assert (Hsq : sqrt D1 * sqrt D2 <= K).
  { rewrite <- sqrt_mult by assumption. now apply sqrt_upper. }
  pose proof (sqrt_sqrt D1 HD1) as H1. pose proof (sqrt_sqrt D2 HD2) as H2.
  pose proof (sqrt_pos D1) as P1. pose proof (sqrt_pos D2) as P2.
  assert (Hsum : D1 + D2 = 2 * (A * s0 * (A * s0) + BB * t + f * f))
    by (unfold D1, D2; ring).
  assert (Hsquare : (sqrt D1 + sqrt D2) * (sqrt D1 + sqrt D2) <= 2 * A * (2 * A))
    by (unfold K in Hsq; nra).
  assert (HA : 0 <= A) by lra.
  destruct (Rle_lt_dec (sqrt D1 + sqrt D2) (2 * A)) as [Hle | Hgt]; [exact Hle |].
  exfalso. nra.
Qed.

Lemma rotate_radicand (ux uy c01 c11 X Y : R) :
  ux * ux + uy * uy = 1 -> ux * c01 + uy * c11 = 0 ->
  (X * ux + Y * c01) * (X * ux + Y * c01) + (X * uy + Y * c11) * (X * uy + Y * c11)
  = X * X + Y * Y * (c01 * c01 + c11 * c11).
Proof.
  intros Hu Ho.
  replace ((X * ux + Y * c01) * (X * ux + Y * c01)
           + (X * uy + Y * c11) * (X * uy + Y * c11))
    with (X * X * (ux * ux + uy * uy) + 2 * X * Y * (ux * c01 + uy * c11)
          + Y * Y * (c01 * c01 + c11 * c11)) by ring.
  rewrite Hu, Ho. ring.
Qed.

Lemma sample_unit_ball_disk (dr : Draws) :
  0 <= ball_a dr <= 1 -> 0 <= ball_b dr <= 1 ->
  0 < Rmax (ball_a dr) (ball_b dr) ->
  exists s0 s1, sample_unit_ball dr = Ok (s0, s1, 0) /\ s0 * s0 + s1 * s1 <= 1.
Proof.
  intros Ha Hb Hmax. unfold sample_unit_ball. unfold Rmax in Hmax.
  destruct (Rle_dec (ball_a dr) (ball_b dr)) as [Hle | Hgt];
    destruct (Rlt_dec (ball_b dr) (ball_a dr)) as [Hlt | Hge]; try lra;
    rewrite pydiv_ok by lra; cbn [bind].
  - set (q := 2 * PI * ball_a dr / ball_b dr).
    pose proof (sin2_cos2 q) as Hsc. unfold Rsqr in Hsc.
    exists (ball_b dr * cos q), (ball_b dr * sin q). split; [reflexivity | nra].
  - set (q := 2 * PI * ball_b dr / ball_a dr).
    pose proof (sin2_cos2 q) as Hsc. unfold Rsqr in Hsc.
    exists (ball_a dr * cos q), (ball_a dr * sin q). split; [reflexivity | nra].
Qed.

(** X19: when the rotation handed to the sampler has orthonormal first
    and second columns, the first being the unit vector from the start to
    the goal, an informed sample for a best cost [c >= cMin] exists and
    lies in the ellipse with the start and the goal as foci: its distances
    to the start and to the goal sum to at most [c]. *)
Theorem informed_sample_in_ellipse (svd : vec3 -> mat3) (self : InformedRRTStar)
    (su : Setup) (c : R) (dr : Draws) :
  setup svd self = Ok su ->
  aligned_rotation self su ->
  cMin su <= c ->
  0 <= ball_a dr <= 1 -> 0 <= ball_b dr <= 1 ->
  0 < Rmax (ball_a dr) (ball_b dr) ->
  exists p,
    informed_sample self (Fin c) (cMin su) (xCenter su) (C su) dr = Ok p
    /\ dist p (x (start self), y (start self))
       + dist p (x (goal self), y (goal self)) <= c.
Proof.
  intros Hsu (Hcol1 & Horth & Hnorm) Hc Ha Hb Hmax.
  destruct (setup_cMin svd self su Hsu) as [HcMin Hpos].
  assert (HxC : xCenter su = ((x (start self) + x (goal self)) / 2,
                              (y (start self) + y (goal self)) / 2, 0)).
  { unfold setup in Hsu. bind_inv Hsu. bind_inv Hsu. inversion Hsu. reflexivity. }
  set (m := cMin su) in *.
  set (sx := x (start self)) in *. set (sy := y (start self)) in *.
  set (gx := x (goal self)) in *. set (gy := y (goal self)) in *.
  set (ux := (gx - sx) / m) in *. set (uy := (gy - sy) / m) in *.
  assert (Hmx : m * ux = gx - sx) by (unfold ux; field; lra).
  assert (Hmy : m * uy = gy - sy) by (unfold uy; field; lra).
  assert (Hmm : m * m = (sx - gx) * (sx - gx) + (sy - gy) * (sy - gy)).
  { rewrite HcMin. apply sqrt_sqrt. apply sqrt_sqr_sum_nonneg. }
  assert (Hu : ux * ux + uy * uy = 1).
  { assert (H : m * m * (ux * ux + uy * uy) = m * m * 1) by nra.
    apply Rmult_eq_reg_l in H; [exact H | nra]. }
  destruct (C su) as [[[[c00 c01] c02] [[c10 c11] c12]] [[c20 c21] c22]].
  cbn [first_column second_column dot3] in Hcol1, Horth, Hnorm.
  inversion Hcol1; subst c00 c10 c20. clear Hcol1.
  assert (Ho : ux * c01 + uy * c11 = 0) by lra.
  assert (Hk : 0 <= c01 * c01 + c11 * c11 <= 1) by nra.
  destruct (sample_unit_ball_disk dr Ha Hb Hmax) as (s0 & s1 & Hball & Hdisk).
  unfold informed_sample.
  assert (Hrad : 0 <= c * c - m * m) by nra.
  rewrite pysqrt_ok by exact Hrad. cbn [bind]. rewrite Hball. cbn [bind].
  set (s := sqrt (c * c - m * m)).
  assert (Hss : s * s = c * c - m * m) by (apply sqrt_sqrt; exact Hrad).
  rewrite HxC. cbn [mat_diag mat_vec vec_add dot3].
  eexists. split; [reflexivity |].
  unfold dist, sqr. cbn [fst snd].
  set (X1 := c / 2 * s0 + m / 2). set (X2 := c / 2 * s0 - m / 2).
  set (Y := s / 2 * s1).
  replace (ux * (c / 2) * s0 + c01 * (s / 2) * s1 + c02 * (s / 2) * 0
           + (sx + gx) / 2 - sx) with (X1 * ux + Y * c01) by (unfold X1, Y; lra).
  replace (uy * (c / 2) * s0 + c11 * (s / 2) * s1 + c12 * (s / 2) * 0
           + (sy + gy) / 2 - sy) with (X1 * uy + Y * c11) by (unfold X1, Y; lra).
  replace (ux * (c / 2) * s0 + c01 * (s / 2) * s1 + c02 * (s / 2) * 0
           + (sx + gx) / 2 - gx) with (X2 * ux + Y * c01) by (unfold X2, Y; lra).
  replace (uy * (c / 2) * s0 + c11 * (s / 2) * s1 + c12 * (s / 2) * 0
           + (sy + gy) / 2 - gy) with (X2 * uy + Y * c11) by (unfold X2, Y; lra).
  rewrite !(rotate_radicand ux uy c01 c11 _ Y Hu Ho).
  pose proof (ellipse_focal_sum (c / 2) (s / 2) (m / 2) s0
                (s1 * s1 * (c01 * c01 + c11 * c11))) as Hfocal.
  replace (X1 * X1 + Y * Y * (c01 * c01 + c11 * c11))
    with ((c / 2 * s0 + m / 2) * (c / 2 * s0 + m / 2)
          + s / 2 * (s / 2) * (s1 * s1 * (c01 * c01 + c11 * c11)))
    by (unfold X1, Y; ring).
  replace (X2 * X2 + Y * Y * (c01 * c01 + c11 * c11))
    with ((c / 2 * s0 - m / 2) * (c / 2 * s0 - m / 2)
          + s / 2 * (s / 2) * (s1 * s1 * (c01 * c01 + c11 * c11)))
    by (unfold X2, Y; ring).
  replace c with (2 * (c / 2)) at 5 by lra.
  apply Hfocal.
  - lra.
  - nra.
  - apply Rmult_le_pos; nra.
  - assert (s1 * s1 * (c01 * c01 + c11 * c11) <= s1 * s1 * 1)
      by (apply Rmult_le_compat_l; nra).
    lra.
Qed.

(** ** Witnesses on the runs *)

Lemma detour_rewire :
  rewire detour_planner [Node_init 0 0; detour_a; detour_b; detour_d; detour_n]
         detour_n [0%nat; 2%nat]
  = Ok [Node_init 0 0; detour_a; detour_b'; detour_d; detour_n].
Proof.
  pose proof sqrt_200_bounds as H200. pose proof sqrt_320_bounds as H320.
  unfold rewire, rewire_step, detour_a, detour_b, detour_b', detour_d, detour_n. fields.
  cbn [foldM getitem nth_error bind]. fields.
  replace (sqrt (sqr (0 - 2) + sqr (0 - 14))) with (sqrt 200)
    by (f_equal; unfold sqr; lra).
  rdec. cbn [getitem nth_error bind]. fields.
  replace (sqrt (sqr (10 - 2) + sqr (30 - 14))) with (sqrt 320)
    by (f_equal; unfold sqr; lra).
  rdec. rewrite detour_free. cbn [bind setitem]. req.
Qed.

Lemma rewire_spec_witness :
  length [Node_init 0 0; detour_a; detour_b'; detour_d; detour_n]
  = length [Node_init 0 0; detour_a; detour_b; detour_d; detour_n].
Proof.
  destruct (rewire_spec _ _ _ _ _ detour_rewire) as [Hlen _]. exact Hlen.
Defined.


Lemma check_collision_extend_degenerate_witness :
  check_collision_extend
    (mkPlanner (Node_init 0 0) (Node_init 5 10) (-2) 15 0 10 200 main_obstacles)
    (Node_init 0 0) 0 1 = Raise ZeroDivisionError.
Proof.
  apply (check_collision_extend_degenerate
           (mkPlanner (Node_init 0 0) (Node_init 5 10) (-2) 15 0 10 200 main_obstacles)
           (Node_init 0 0) 0 1).
  reflexivity.
Defined.

Lemma line_aligned : aligned_rotation line_planner (line_setup identity_rotation).
Proof.
  unfold aligned_rotation, line_setup, identity_rotation, line_planner.
  cbn [C cMin first_column second_column dot3 goal start x y Node_init].
  split; [| split; lra].
  replace ((3 / 2 - 0) / (3 / 2)) with 1 by lra.
  replace ((0 - 0) / (3 / 2)) with 0 by lra. reflexivity.
Qed.

Lemma informed_sample_in_ellipse_witness :
  exists p,
    informed_sample line_planner (Fin (3 / 2)) (cMin (line_setup identity_rotation))
      (xCenter (line_setup identity_rotation)) (C (line_setup identity_rotation))
      (line_draws 1) = Ok p
    /\ dist p (x (start line_planner), y (start line_planner))
       + dist p (x (goal line_planner), y (goal line_planner)) <= 3 / 2.
Proof.
  apply (informed_sample_in_ellipse identity_rotation line_planner
           (line_setup identity_rotation) (3 / 2) (line_draws 1)).
  - exact (line_setup_ok identity_rotation).
  - exact line_aligned.
  - cbn [cMin line_setup]. lra.
  - cbn [line_draws ball_a]. lra.
  - cbn [line_draws ball_b]. lra.
  - cbn [line_draws ball_a ball_b]. unfold Rmax. destruct (Rle_dec 0 (1 / 2)); lra.
Defined.

(** ** Distances and the singleton tree *)


(** X21: in a tree of one node the near radius is 0, so the near set of
    a new node is empty unless the new node lies exactly on that node; the
    first node steered with a step length other than 0 therefore always
    keeps its steering parent. *)
Theorem find_near_nodes_single (root newNode : Node) :
  near_radius 1 = Ok 0
  /\ ((x root <> x newNode \/ y root <> y newNode) ->
      find_near_nodes [root] newNode = Ok [])
  /\ (x root = x newNode -> y root = y newNode ->
      find_near_nodes [root] newNode = Ok [0%nat]).
Proof.
  assert (Hr : near_radius 1 = Ok 0).
  { unfold near_radius, pylog. cbn [INR]. destruct (Rlt_dec 0 1); [| lra].
    cbn [bind]. rewrite ln_1, pydiv_ok by lra. cbn [bind].
    replace (0 / 1) with 0 by lra. rewrite pysqrt_ok by lra. cbn [bind].
    rewrite sqrt_0. f_equal. lra. }
  split; [exact Hr |]. unfold find_near_nodes. cbn [length]. rewrite Hr. cbn [bind].
  unfold near_dlist. cbn [map filter]. split.
  - intros Hne.
    assert (Hpos : 0 < sqr (x root - x newNode) + sqr (y root - y newNode)).
    { pose proof (sqr_nonneg (x root - x newNode)).
      pose proof (sqr_nonneg (y root - y newNode)).
      destruct Hne as [Hd | Hd];
        [pose proof (sqr_pos (x root - x newNode))
        | pose proof (sqr_pos (y root - y newNode))]; lra. }
    destruct (Rle_dec _ (0 * 0)); [lra | reflexivity].
  - intros Hx Hy. rewrite Hx, Hy. unfold sqr.
    destruct (Rle_dec _ (0 * 0)); [| lra].
    cbn [mapM list_index bind].
    destruct (Req_dec_T _ _); [reflexivity | contradiction].
Qed.

Lemma find_near_nodes_single_witness :
  find_near_nodes [Node_init 0 0] line_node_1 = Ok [].
Proof.
  apply (find_near_nodes_single (Node_init 0 0) line_node_1).
  left. cbn [x Node_init line_node_1]. lra.
Defined.

(** ** What rewiring achieves *)

Lemma extend_loop_position (self : InformedRRTStar) (theta : R) (n : nat)
    (n1 n2 : Node) :
  x n1 = x n2 -> y n1 = y n2 ->
  extend_loop self theta n n1 = extend_loop self theta n n2.
Proof.
  intros Hx Hy. rewrite !extend_loop_spec. unfold offsets. now rewrite Hx, Hy.
Qed.

Lemma check_collision_extend_position (self : InformedRRTStar) (n1 n2 : Node)
    (theta d : R) :
  x n1 = x n2 -> y n1 = y n2 ->
  check_collision_extend self n1 theta d = check_collision_extend self n2 theta d.
Proof.
  intros Hx Hy. unfold check_collision_extend.
  destruct (pydiv d (expand_dis self)); cbn [bind]; [| reflexivity].
  now rewrite (extend_loop_position self theta _ n1 n2 Hx Hy).
Qed.

(** The steps of [rewire] keep sizes and positions and never raise a cost,
    whatever index the new node is said to have. *)
Lemma rewire_fold_keeps (self : InformedRRTStar) (newNode : Node) (n_node : nat)
    (inds : list nat) :
  forall l l', foldM (rewire_step self newNode n_node) inds l = Ok l' ->
    length l' = length l
    /\ forall i nd, nth_error l i = Some nd ->
         exists nd', nth_error l' i = Some nd'
           /\ x nd' = x nd /\ y nd' = y nd /\ cost nd' <= cost nd.
Proof.
  induction inds as [| a t IH]; intros l l' H; cbn [foldM] in H.
  - inversion H; subst. split; [reflexivity |]. intros i nd Hi. exists nd.
    repeat split; try assumption; lra.
  - bind_as H l1 Hstep. destruct (IH _ _ H) as [Hlen Hrel].
    assert (Hone : length l1 = length l
                   /\ forall i nd, nth_error l i = Some nd ->
                        exists nd1, nth_error l1 i = Some nd1
                          /\ x nd1 = x nd /\ y nd1 = y nd /\ cost nd1 <= cost nd).
    { unfold rewire_step in Hstep. bind_as Hstep nearNode Hnear.
      apply getitem_ok in Hnear.
      assert (Hsame : length l = length l
                      /\ forall i nd, nth_error l i = Some nd ->
                           exists nd1, nth_error l i = Some nd1
                             /\ x nd1 = x nd /\ y nd1 = y nd /\ cost nd1 <= cost nd).
      { split; [reflexivity |]. intros i nd Hi. exists nd.
        repeat split; try assumption; lra. }
      destruct (Rlt_dec _ (cost nearNode)) as [Hlt | Hge];
        [| inversion Hstep; subst l1; exact Hsame].
      bind_as Hstep free Hfree. destruct free; [| inversion Hstep; subst l1; exact Hsame].
      inversion Hstep; subst l1. split; [apply length_setitem |].
      intros i nd Hi. destruct (Nat.eq_dec a i) as [-> | Hne].
      - assert (nd = nearNode) by congruence. subst nd.
        eexists. split; [apply nth_error_setitem_eq; apply nth_error_Some; congruence |].
        cbn [x y cost]. repeat split; try reflexivity. lra.
      - exists nd. rewrite nth_error_setitem_neq by exact Hne.
        repeat split; try assumption; lra. }
    destruct Hone as [Hlen1 Hrel1]. split; [congruence |].
    intros i nd Hi. destruct (Hrel1 i nd Hi) as (nd1 & H1 & Hx1 & Hy1 & Hc1).
    destruct (Hrel i nd1 H1) as (nd' & H' & Hx' & Hy' & Hc').
    exists nd'. repeat split; try assumption; try congruence; lra.
Qed.

Lemma rewire_fold_settles (self : InformedRRTStar) (newNode : Node) (n_node : nat)
    (inds : list nat) :
  forall l l', foldM (rewire_step self newNode n_node) inds l = Ok l' ->
    forall i nd', In i inds -> nth_error l' i = Some nd' ->
      check_collision_extend self nd'
        (atan2 (y newNode - y nd') (x newNode - x nd')) (line_cost nd' newNode)
      = Ok true ->
      cost nd' <= cost newNode + line_cost nd' newNode.
Proof.
  induction inds as [| a t IH]; intros l l' H i nd' Hin Hnd' Hfree; [contradiction |].
  cbn [foldM] in H. bind_as H l1 Hstep.
  destruct (in_dec Nat.eq_dec i t) as [Ht | Hnt]; [eapply IH; eauto |].
  destruct Hin as [-> | Hin]; [| contradiction].
  destruct (rewire_fold_keeps _ _ _ _ _ _ H) as [Hlen Hrel].
  unfold rewire_step in Hstep. bind_as Hstep nearNode Hnear. apply getitem_ok in Hnear.
  fold (line_cost nearNode newNode) in Hstep.
  assert (Hgoal : forall nd1, nth_error l1 i = Some nd1 ->
                    x nd1 = x nearNode -> y nd1 = y nearNode ->
                    cost nd1 <= cost newNode + line_cost nearNode newNode ->
                    cost nd' <= cost newNode + line_cost nd' newNode).
  { intros nd1 H1 Hx1 Hy1 Hc1. destruct (Hrel i nd1 H1) as (nd2 & H2 & Hx2 & Hy2 & Hc2).
    assert (nd2 = nd') by congruence. subst nd2.
    rewrite (line_cost_position nd' nearNode newNode newNode) by congruence. lra. }
  destruct (Rlt_dec _ (cost nearNode)) as [Hlt | Hge].
  - bind_as Hstep free Hck. destruct free.
    + inversion Hstep; subst l1. eapply Hgoal;
        [apply nth_error_setitem_eq; apply nth_error_Some; congruence | | |];
        cbn [x y cost]; try reflexivity; try lra.
    + exfalso. inversion Hstep; subst l1.
      destruct (Hrel i nearNode Hnear) as (nd2 & H2 & Hx2 & Hy2 & _).
      assert (nd2 = nd') by congruence. subst nd2.
      rewrite (check_collision_extend_position self nd' nearNode) in Hfree by assumption.
      rewrite Hx2, Hy2 in Hfree.
      rewrite (line_cost_position nd' nearNode newNode newNode) in Hfree by congruence.
      congruence.
  - inversion Hstep; subst l1. apply (Hgoal nearNode Hnear); try reflexivity. lra.
Qed.

(** X22: after rewiring, every near node whose segment to the new node
    passes the segment test costs no more than the new node's cost plus
    the distance between them. *)
Theorem rewire_settles_near_nodes (self : InformedRRTStar) (nl nl' : list Node)
    (newNode : Node) (nearInds : list nat) :
  rewire self nl newNode nearInds = Ok nl' ->
  forall i nd', In i nearInds -> nth_error nl' i = Some nd' ->
    check_collision_extend self nd'
      (atan2 (y newNode - y nd') (x newNode - x nd')) (line_cost nd' newNode)
    = Ok true ->
    cost nd' <= cost newNode + line_cost nd' newNode.
Proof. intros H. eapply rewire_fold_settles. exact H. Qed.

Lemma rewire_settles_near_nodes_witness :
  cost detour_b' <= cost detour_n + line_cost detour_b' detour_n.
Proof.
  apply (rewire_settles_near_nodes _ _ _ _ _ detour_rewire 2%nat detour_b').
  - right. now left.
  - reflexivity.
  - apply detour_free.
Defined.
